(** * Geometry primitives of the configuration assistant

    A shallow embedding of [src/geometry_helper.py].  NumPy's [float64]
    arithmetic is idealised by the real numbers of the Standard Library;
    the only place where IEEE special values are kept is [true_divide],
    because what a division by a zero norm produces is observable there.

    NumPy arrays are objects of a store: a function that receives an array
    receives a reference, and an augmented assignment such as [points -= c]
    writes through that reference.  Arguments that a function only reads
    are passed by value. *)

From Stdlib Require Import Reals Lra List.
From stdpp Require Import base option gmap.
From stdpp Require Import strings pretty.
Import ListNotations.

Local Open Scope R_scope.

(** ** Values *)

(** A row of an (N, 2) array, and a vector of shape (2,). *)
Abbreviation point := (R * R)%type.

(** An array of shape (N, 2), row by row. *)
Abbreviation ndarray := (list point).

(** A 2x2 matrix, row by row. *)
Abbreviation mat22 := ((R * R) * (R * R))%type.

(** An array of shape (2, N): its two rows. *)
Abbreviation ndarray_T := (list R * list R)%type.

(** What a [float64] division can produce. *)
Inductive float64 : Type :=
| Finite (r : R)
| PosInf
| NegInf
| NaN.

(** ** Exceptions *)

(** [ValueError]: [min] or [max] of an empty sequence.  [TypeError]: a NumPy
    operator applied to an object that is not an array. *)
Inductive exn : Type :=
| ValueError
| TypeError.

Inductive result (A : Type) : Type :=
| Returned (a : A)
| Raised (e : exn).
Arguments Returned {A} a.
Arguments Raised {A} e.

#[global] Instance result_ret : MRet result := fun A a => Returned a.
#[global] Instance result_bind : MBind result := fun A B f r =>
  match r with
  | Returned a => f a
  | Raised e => Raised e
  end.

(** ** The store of array objects *)

Abbreviation loc := nat.
Abbreviation heap := (gmap nat ndarray).

(** A computation that may read and write arrays of the store, and raise. *)
Definition M (A : Type) : Type := heap -> result (A * heap).

#[global] Instance M_ret : MRet M := fun A a h => Returned (a, h).
#[global] Instance M_bind : MBind M := fun A B f m h =>
  match m h with
  | Returned (a, h') => f a h'
  | Raised e => Raised e
  end.

Definition load (l : loc) : M ndarray := fun h =>
  match h !! l with
  | Some a => Returned (a, h)
  | None => Raised TypeError
  end.

Definition store (l : loc) (a : ndarray) : M unit := fun h =>
  match h !! l with
  | Some _ => Returned (tt, <[l:=a]> h)
  | None => Raised TypeError
  end.

(** A new array object, at a reference the store does not use yet. *)
Definition alloc (a : ndarray) : M loc := fun h =>
  let l := fresh (dom h) in Returned (l, <[l:=a]> h).

Definition lift {A : Type} (r : result A) : M A := fun h =>
  match r with
  | Returned a => Returned (a, h)
  | Raised e => Raised e
  end.

(** ** NumPy and built-in operations used by the module *)

(** [v + w] and [v - w] on vectors of shape (2,): a new vector. *)
Definition vec_add (v w : point) : point := (v.1 + w.1, v.2 + w.2).
Definition vec_sub (v w : point) : point := (v.1 - w.1, v.2 - w.2).

(** [a -= v] and [a += v], [v] broadcast over the rows of [a]: the array
    object [a] itself is overwritten. *)
Definition isub (a : loc) (v : point) : M unit :=
  rows ← load a; store a (map (fun p => vec_sub p v) rows).

Definition iadd (a : loc) (v : point) : M unit :=
  rows ← load a; store a (map (fun p => vec_add p v) rows).

(** [np.deg2rad]. *)
Definition deg2rad (x : R) : R := x * (PI / 180).

(** [a.T] of an (N, 2) array and of a (2, N) array. *)
Definition transpose (a : ndarray) : ndarray_T := (map fst a, map snd a).
Definition transpose_back (a : ndarray_T) : ndarray := combine a.1 a.2.

(** [np.matmul] of a 2x2 matrix and a (2, N) array. *)
Definition matmul (m : mat22) (a : ndarray_T) : ndarray_T :=
  let row (r : R * R) := map (fun p : point => r.1 * p.1 + r.2 * p.2) (combine a.1 a.2) in
  (row m.1, row m.2).

(** [np.dot] of an (N, 2) array and a vector of shape (2,). *)
Definition dot (a : ndarray) (v : point) : list R :=
  map (fun p : point => p.1 * v.1 + p.2 * v.2) a.

(** [np.linalg.norm] of a vector. *)
Definition norm (vec : list R) : R :=
  sqrt (fold_right Rplus 0 (map (fun x => x * x) vec)).

(** [x / n] on [float64]: NumPy warns on a zero divisor and does not raise. *)
Definition true_divide (x n : R) : float64 :=
  if Req_dec_T n 0 then
    if Req_dec_T x 0 then NaN
    else if Rlt_dec 0 x then PosInf else NegInf
  else Finite (x / n).

(** The built-ins [min(a, b)] and [max(a, b)]: the first argument is kept
    unless the second is strictly smaller (resp. larger). *)
Definition min2 (a b : R) : R := if Rlt_dec b a then b else a.
Definition max2 (a b : R) : R := if Rlt_dec a b then b else a.

(** The built-ins [min(seq)] and [max(seq)]. *)
Definition min_seq (xs : list R) : result R :=
  match xs with
  | [] => Raised ValueError
  | x :: rest => Returned (fold_left min2 rest x)
  end.

Definition max_seq (xs : list R) : result R :=
  match xs with
  | [] => Raised ValueError
  | x :: rest => Returned (fold_left max2 rest x)
  end.

(** ** The functions of [geometry_helper.py] *)

Definition calculate_vertices_of_axis_aligned_rectangle
    (center : point) (width height : R) : result ndarray :=
  let half_width := 0.5 * width in
  let half_height := 0.5 * height in
  let a := vec_add center (- half_width, half_height) in
  let b := vec_add center (half_width, half_height) in
  let c := vec_add center (half_width, - half_height) in
  let d := vec_add center (- half_width, - half_height) in
  let vertices := [a; b; c; d] in
  mret vertices.

(** The default value of [center_of_rotation]. *)
Definition default_center_of_rotation : point := (0, 0).

Definition calculate_clockwise_rotated_2d_point
    (points : loc) (angle_deg : R) (center_of_rotation : point) : M loc :=
  isub points center_of_rotation;;
  let angle := deg2rad angle_deg in
  let rotation_mat : mat22 :=
    ((cos angle, sin angle),
     (- sin angle, cos angle)) in
  rows ← load points;
  rotated_points ← alloc (transpose_back (matmul rotation_mat (transpose rows)));
  iadd rotated_points center_of_rotation;;
  mret rotated_points.

Definition calculate_vertices_of_rotated_rectangle
    (center : point) (width height angle_deg : R) : M loc :=
  corners ← lift (calculate_vertices_of_axis_aligned_rectangle center width height);
  vertices ← alloc corners;
  rotated_vertices ← calculate_clockwise_rotated_2d_point vertices angle_deg center;
  mret rotated_vertices.

Definition determine_overlap_between_aligned_segments
    (segment1 segment2 : list R) : result R :=
  start1 ← min_seq segment1;
  stop1 ← max_seq segment1;
  start2 ← min_seq segment2;
  stop2 ← max_seq segment2;
  let overlap := max2 0 (min2 stop2 stop1 - max2 start2 start1) in
  mret overlap.

Definition get_projected_distance_of_2d_points_onto_axis
    (points : ndarray) (axis : point) : result (list R) :=
  let projected_points := dot points axis in
  mret projected_points.

Definition get_min_max_projections
    (points : ndarray) (axis : point) : result (R * R) :=
  projections ← get_projected_distance_of_2d_points_onto_axis points axis;
  min_distance ← min_seq projections;
  max_distance ← max_seq projections;
  mret (min_distance, max_distance).

Definition normalise_vector (vec : list R) : result (list float64) :=
  let normalised_vec := map (fun x => true_divide x (norm vec)) vec in
  mret normalised_vec.

(** ** The rotation, as a map on points *)

(** The clockwise rotation matrix of the angle [theta], in radians. *)
Definition clockwise_matrix (theta : R) : mat22 :=
  ((cos theta, sin theta), (- sin theta, cos theta)).

(** The product of a 2x2 matrix and a column vector. *)
Definition mat_vec (m : mat22) (p : point) : point :=
  (m.1.1 * p.1 + m.1.2 * p.2, m.2.1 * p.1 + m.2.2 * p.2).

(** [R (p - c) + c], [R] the clockwise rotation matrix of [angle_deg] degrees. *)
Definition rotate_about (angle_deg : R) (c p : point) : point :=
  vec_add (mat_vec (clockwise_matrix (deg2rad angle_deg)) (vec_sub p c)) c.

(** The Euclidean distance of two points. *)
Definition dist (p q : point) : R :=
  sqrt ((p.1 - q.1) * (p.1 - q.1) + (p.2 - q.2) * (p.2 - q.2)).

(** A point of the line that lies on both segments. *)
Definition common_point (amin amax bmin bmax x : R) : Prop :=
  (amin <= x <= amax) /\ (bmin <= x <= bmax).

(** Disjoint segments have no common point, touching ones exactly one. *)
Definition disjoint_or_touching (amin amax bmin bmax : R) : Prop :=
  forall x y : R,
    common_point amin amax bmin bmax x -> common_point amin amax bmin bmax y -> x = y.

(** The least and the greatest element of a sequence. *)
Definition least (m : R) (xs : list R) : Prop :=
  In m xs /\ forall x : R, In x xs -> m <= x.

Definition greatest (m : R) (xs : list R) : Prop :=
  In m xs /\ forall x : R, In x xs -> x <= m.

(** ** [checker.py] *)

(** [np.isclose(a, b)] with NumPy's default tolerances:
    [|a - b| <= atol + rtol * |b|]. *)
Definition rtol : R := 1e-5.
Definition atol : R := 1e-8.

Definition isclose (a b : R) : bool :=
  if Rle_dec (Rabs (a - b)) (atol + rtol * Rabs b) then true else false.

Section Checker.

(** The class [RectangularCuboid] and the function
    [apply_separating_axis_theorem] are imported from modules that are not
    part of the sources at hand: the class is a type with its attribute
    [name], the function returns the minimum translation vector of two
    cuboids, a vector of shape (2,). *)
Variable RectangularCuboid : Type.
Variable name : RectangularCuboid -> string.
Variable apply_separating_axis_theorem : RectangularCuboid -> RectangularCuboid -> point.

(** The body of the inner loop, on [cuboids[i]] and [cuboids[j]]. *)
Definition check_pair (item1 item2 : RectangularCuboid)
    (items_with_overlap : gset string) : gset string :=
  let mtv := apply_separating_axis_theorem item1 item2 in
  if negb (isclose mtv.1 0 && isclose mtv.2 0)
  then {[name item2]} ∪ ({[name item1]} ∪ items_with_overlap)
  else items_with_overlap.

Definition check_overlaps_between_cuboids (cuboids : list RectangularCuboid) : gset string :=
  let n := length cuboids in
  foldl (fun items_with_overlap i =>
           foldl (fun items_with_overlap j =>
                    match cuboids !! i, cuboids !! j with
                    | Some item1, Some item2 => check_pair item1 item2 items_with_overlap
                    | _, _ => items_with_overlap
                    end)
             items_with_overlap (seq (i + 1) (n - (i + 1))))
    ∅ (seq 0 n).

End Checker.

(** ** [config_assistant.py] *)

(** What the loaded configuration holds for a position or a size (an object
    read at the keys "x", "y" and "z") and for a colour (read at "r", "g"
    and "b"). *)
Record Vector3 : Type := { v_x : R; v_y : R; v_z : R }.
Record RGB : Type := { c_r : R; c_g : R; c_b : R }.

(** An entry of [config_data["arenas"][0]["items"]]: the keys "name" and
    "positions", and the keys whose presence the code tests or may miss. *)
Record item_type : Type := {
  item_name : string;
  positions : list Vector3;
  rotations : option (list R);
  sizes : option (list Vector3);
  colors : option (list RGB)
}.

(** The class [RectangularCuboid] is not part of the sources at hand: an
    instance is represented by the keyword arguments of the constructor
    call that creates it. *)
Record cuboid_arguments : Type := {
  lower_base_centroid : R * R * R;
  dimensions : R * R * R;
  rotation : R;
  name : string;
  colour : option RGB
}.

(** [KeyError]: a key that a dictionary does not have.  [IndexError]: a
    list index out of range. *)
Inductive config_exn : Type :=
| KeyError
| IndexError.

Inductive config_result (A : Type) : Type :=
| Loaded (a : A)
| Failed (e : config_exn).
Arguments Loaded {A} a.
Arguments Failed {A} e.

#[global] Instance config_result_ret : MRet config_result := fun A a => Loaded a.
#[global] Instance config_result_bind : MBind config_result := fun A B f r =>
  match r with
  | Loaded a => f a
  | Failed e => Failed e
  end.

(** [xs[j]] for an index that is not negative. *)
Definition index {A : Type} (xs : list A) (j : nat) : config_result A :=
  match xs !! j with
  | Some x => Loaded x
  | None => Failed IndexError
  end.

(** [d[key][j]] where the key may be missing. *)
Definition key_index {A : Type} (d : option (list A)) (j : nat) : config_result A :=
  match d with
  | Some xs => index xs j
  | None => Failed KeyError
  end.

(** [needle in haystack] on strings. *)
Fixpoint is_substring (needle haystack : string) : bool :=
  if String.prefix needle haystack then true
  else match haystack with
       | EmptyString => false
       | String _ rest => is_substring needle rest
       end.

(** A [for] loop whose body may raise: the body updates the loop state. *)
Fixpoint for_each {A S : Type} (body : S -> A -> config_result S) (l : list A) (s : S) :
    config_result S :=
  match l with
  | [] => mret s
  | a :: l' => s' ← body s a; for_each body l' s'
  end.

Definition _set_item_name_from (type_name : string) (item_ix : nat) : string :=
  type_name +:+ " " +:+ pretty item_ix.

(** The body of the inner loop of [_create_rectangular_cuboid_list]. *)
Definition create_rectangular_cuboid (items : item_type) (j : nat) :
    config_result cuboid_arguments :=
  let name := _set_item_name_from (item_name items) j in
  position ← index (positions items) j;
  rotation ← match rotations items with
             | Some rs => index rs j
             | None => mret 0
             end;
  size_colour ← (if is_substring "Agent" name
                 then mret ({| v_x := 1; v_y := 1; v_z := 1 |},
                            Some {| c_r := 0; c_g := 0; c_b := 0 |})
                 else
                   size ← key_index (sizes items) j;
                   colour ← match colors items with
                            | Some cs => c ← index cs j; mret (Some c)
                            | None => mret None
                            end;
                   mret (size, colour));
  let size := size_colour.1 in
  let colour := size_colour.2 in
  let xzy_lower_base_centroid := (v_x position, v_z position, v_y position) in
  let xzy_dimensions := (v_x size, v_z size, v_y size) in
  mret {| lower_base_centroid := xzy_lower_base_centroid;
          dimensions := xzy_dimensions;
          rotation := rotation;
          name := name;
          colour := colour |}.

(** [item_types] is [self.config_data["arenas"][0]["items"]]; the list
    returned holds the arguments of the constructor calls, in order. *)
Definition _create_rectangular_cuboid_list (item_types : list item_type) :
    config_result (list cuboid_arguments) :=
  for_each
    (fun rec_cuboids items =>
       let num_items := length (positions items) in
       for_each
         (fun rec_cuboids j =>
            rec_cuboid ← create_rectangular_cuboid items j;
            mret (rec_cuboids ++ [rec_cuboid]))
         (seq 0 num_items) rec_cuboids)
    item_types [].

(** * Properties *)

(** ** The store *)

Lemma M_bind_Returned {A B : Type} (m : M A) (f : A -> M B) (h h' : heap) (a : A) :
  m h = Returned (a, h') -> (m ≫= f) h = f a h'.
Proof. intros Hm. unfold mbind, M_bind. now rewrite Hm. Qed.

Lemma load_Some (l : loc) (h : heap) (a : ndarray) :
  h !! l = Some a -> load l h = Returned (a, h).
Proof. intros Hl. unfold load. now rewrite Hl. Qed.

Lemma store_Some (l : loc) (h : heap) (a b : ndarray) :
  h !! l = Some a -> store l b h = Returned (tt, <[l:=b]> h).
Proof. intros Hl. unfold store. now rewrite Hl. Qed.

Lemma fresh_unused (h : heap) : h !! fresh (dom h) = None.
Proof. apply not_elem_of_dom, is_fresh. Qed.

Lemma fresh_neq (h : heap) (l : loc) (a : ndarray) :
  h !! l = Some a -> l <> fresh (dom h).
Proof. intros Hl ->. rewrite fresh_unused in Hl. discriminate. Qed.

Lemma isub_run (l : loc) (v : point) (h : heap) (rows : ndarray) :
  h !! l = Some rows ->
  isub l v h = Returned (tt, <[l := map (fun p => vec_sub p v) rows]> h).
Proof.
  intros Hl. unfold isub.
  rewrite (M_bind_Returned _ _ _ _ _ (load_Some _ _ _ Hl)).
  now apply store_Some with rows.
Qed.

Lemma iadd_run (l : loc) (v : point) (h : heap) (rows : ndarray) :
  h !! l = Some rows ->
  iadd l v h = Returned (tt, <[l := map (fun p => vec_add p v) rows]> h).
Proof.
  intros Hl. unfold iadd.
  rewrite (M_bind_Returned _ _ _ _ _ (load_Some _ _ _ Hl)).
  now apply store_Some with rows.
Qed.

(** ** The matrix product, row by row *)

Lemma transpose_back_matmul (m : mat22) (rows : ndarray) :
  transpose_back (matmul m (transpose rows)) = map (mat_vec m) rows.
Proof.
  unfold transpose_back, matmul, transpose. cbn [fst snd].
  induction rows as [|[x y] rows IH]; [reflexivity|].
  cbn [map combine fst snd]. unfold mat_vec at 2. cbn [fst snd].
  f_equal. exact IH.
Qed.

(** ** What one call of the rotation does to the store *)

(** The argument array is left translated by the pivot; the result is a new
    array object holding the rotated rows. *)
Lemma rotated_run (points : loc) (angle_deg : R) (c : point) (h : heap) (rows : ndarray) :
  h !! points = Some rows ->
  calculate_clockwise_rotated_2d_point points angle_deg c h =
    Returned (fresh (dom h),
              <[fresh (dom h) := map (rotate_about angle_deg c) rows]>
                (<[points := map (fun p => vec_sub p c) rows]> h)).
Proof.
  intros Hp. unfold calculate_clockwise_rotated_2d_point.
  rewrite (M_bind_Returned _ _ _ _ _ (isub_run _ c _ _ Hp)).
  set (h1 := <[points := map (fun p => vec_sub p c) rows]> h).
  assert (H1 : h1 !! points = Some (map (fun p => vec_sub p c) rows))
    by apply lookup_insert_eq.
  rewrite (M_bind_Returned _ _ _ _ _ (load_Some _ _ _ H1)).
  assert (Hdom : dom h1 = dom h).
  { unfold h1. apply dom_insert_lookup_L. now exists rows. }
  unfold mbind at 1, M_bind, alloc. rewrite Hdom.
  set (r := fresh (dom h)). rewrite transpose_back_matmul.
  set (h2 := <[r := _]> h1).
  assert (H2 : h2 !! r = Some (map (mat_vec (clockwise_matrix (deg2rad angle_deg)))
                                   (map (fun p => vec_sub p c) rows)))
    by apply lookup_insert_eq.
  rewrite (M_bind_Returned _ _ _ _ _ (iadd_run _ c _ _ H2)).
  unfold mret, M_ret, h2. rewrite insert_insert_eq.
  rewrite !map_map. reflexivity.
Qed.

(** ** Trigonometry of the rotation matrix *)

Lemma sin_cos_square (t : R) : sin t * sin t + cos t * cos t = 1.
Proof. generalize (sin2_cos2 t). unfold Rsqr. tauto. Qed.

Lemma deg2rad_opp (x : R) : deg2rad (- x) = - deg2rad x.
Proof. unfold deg2rad. lra. Qed.

Lemma deg2rad_0 : deg2rad 0 = 0.
Proof. unfold deg2rad. lra. Qed.

Lemma deg2rad_90 : deg2rad 90 = PI / 2.
Proof. unfold deg2rad. lra. Qed.

Lemma rotate_about_formula (angle_deg : R) (c p : point) :
  rotate_about angle_deg c p =
    (cos (deg2rad angle_deg) * (p.1 - c.1) + sin (deg2rad angle_deg) * (p.2 - c.2) + c.1,
     - sin (deg2rad angle_deg) * (p.1 - c.1) + cos (deg2rad angle_deg) * (p.2 - c.2) + c.2).
Proof. reflexivity. Qed.

Lemma rotate_about_0 (c p : point) : rotate_about 0 c p = p.
Proof.
  destruct p as [x y], c as [cx cy]. rewrite rotate_about_formula, deg2rad_0, cos_0, sin_0.
  cbn [fst snd]. f_equal; lra.
Qed.

Lemma rotate_about_inverse (angle_deg : R) (c p : point) :
  rotate_about (- angle_deg) c (rotate_about angle_deg c p) = p.
Proof.
  destruct p as [x y], c as [cx cy].
  rewrite (rotate_about_formula (- angle_deg)), deg2rad_opp, cos_neg, sin_neg.
  rewrite rotate_about_formula. cbn [fst snd].
  pose proof (sin_cos_square (deg2rad angle_deg)) as Hsc.
  set (s := sin (deg2rad angle_deg)) in *. set (k := cos (deg2rad angle_deg)) in *.
  f_equal.
  - replace (k * (k * (x - cx) + s * (y - cy) + cx - cx)
             + - s * (- s * (x - cx) + k * (y - cy) + cy - cy) + cx)
      with ((s * s + k * k) * (x - cx) + cx) by ring.
    rewrite Hsc. ring.
  - replace (- - s * (k * (x - cx) + s * (y - cy) + cx - cx)
             + k * (- s * (x - cx) + k * (y - cy) + cy - cy) + cy)
      with ((s * s + k * k) * (y - cy) + cy) by ring.
    rewrite Hsc. ring.
Qed.

Lemma rotate_about_dist (angle_deg : R) (c p : point) :
  dist (rotate_about angle_deg c p) c = dist p c.
Proof.
  destruct p as [x y], c as [cx cy]. rewrite rotate_about_formula.
  unfold dist. cbn [fst snd].
  pose proof (sin_cos_square (deg2rad angle_deg)) as Hsc.
  set (s := sin (deg2rad angle_deg)) in *. set (k := cos (deg2rad angle_deg)) in *.
  f_equal.
  replace ((k * (x - cx) + s * (y - cy) + cx - cx) * (k * (x - cx) + s * (y - cy) + cx - cx)
           + (- s * (x - cx) + k * (y - cy) + cy - cy) * (- s * (x - cx) + k * (y - cy) + cy - cy))
    with ((s * s + k * k) * ((x - cx) * (x - cx) + (y - cy) * (y - cy))) by ring.
  rewrite Hsc. ring.
Qed.

(** ** The rotation and the store *)

(** C1: on the array [[1, 0]], the angle 0 and the pivot (1, 1), the call
    returns a new array object, but the array it was given no longer holds
    what it held before the call: it holds [[0, -1]], the input translated
    by the pivot.  The in-place subtraction [points -= center_of_rotation]
    is never undone on the argument. *)
Theorem rotation_overwrites_its_argument :
  let h : heap := {[ 0%nat := [(1, 0)] ]} in
  exists (r : loc) (h' : heap),
    calculate_clockwise_rotated_2d_point 0%nat 0 (1, 1) h = Returned (r, h')
    /\ r <> 0%nat
    /\ h' !! r = Some [(1, 0)]
    /\ h' !! 0%nat = Some [(0, -1)]
    /\ h' !! 0%nat <> h !! 0%nat.
Proof.
  intros h.
  assert (Hp : h !! 0%nat = Some [(1, 0)]) by apply lookup_singleton_eq.
  eexists _, _. split; [apply (rotated_run _ _ _ _ _ Hp)|].
  pose proof (fresh_neq _ _ _ Hp) as Hne.
  assert (Hdiff : forall h' : heap,
             h' !! 0%nat = Some [(0, -1)] -> h' !! 0%nat <> h !! 0%nat).
  { intros h' E1 E2. rewrite E1, Hp in E2. injection E2 as E3 E4. lra. }
  assert (H0 : (<[fresh (dom h) := map (rotate_about 0 (1, 1)) [(1, 0)]]>
                 (<[0%nat := map (fun p => vec_sub p (1, 1)) [(1, 0)]]> h)) !! 0%nat
               = Some [(0, -1)]).
  { rewrite lookup_insert_ne by (intros E; apply Hne; symmetry; exact E).
    rewrite lookup_insert_eq. cbn [map]. unfold vec_sub. cbn [fst snd].
    do 3 f_equal; lra. }
  split; [intros E; apply Hne; symmetry; exact E|]. split; [|split].
  - rewrite lookup_insert_eq. cbn [map]. now rewrite rotate_about_0.
  - exact H0.
  - apply Hdiff. exact H0.
Qed.

(** C6: the array returned by the rotation holds, row by row,
    [R (p - c) + c] with [R = [[cos t, sin t], [- sin t, cos t]]], the
    clockwise rotation matrix of the angle in radians; and the point (1, 0),
    rotated by 90 degrees about the origin, becomes (0, -1). *)
Theorem rotation_is_clockwise
    (h : heap) (points : loc) (rows : ndarray) (angle_deg : R) (c : point)
    (Hpoints : h !! points = Some rows) :
  (exists (r : loc) (h' : heap),
      calculate_clockwise_rotated_2d_point points angle_deg c h = Returned (r, h')
      /\ h' !! r =
           Some (map (fun p : point =>
                        let t := deg2rad angle_deg in
                        (cos t * (p.1 - c.1) + sin t * (p.2 - c.2) + c.1,
                         - sin t * (p.1 - c.1) + cos t * (p.2 - c.2) + c.2)) rows))
  /\ (exists (r : loc) (h' : heap),
         calculate_clockwise_rotated_2d_point 0%nat 90 default_center_of_rotation
           {[ 0%nat := [(1, 0)] ]} = Returned (r, h')
         /\ h' !! r = Some [(0, -1)]).
Proof.
  split.
  - eexists _, _. split; [apply (rotated_run _ _ _ _ _ Hpoints)|].
    rewrite lookup_insert_eq. reflexivity.
  - assert (H0 : ({[ 0%nat := [(1, 0)] ]} : heap) !! 0%nat = Some [(1, 0)])
      by apply lookup_singleton_eq.
    eexists _, _. split; [apply (rotated_run _ _ _ _ _ H0)|].
    rewrite lookup_insert_eq. cbn [map].
    rewrite rotate_about_formula, deg2rad_90, cos_PI2, sin_PI2.
    unfold default_center_of_rotation. cbn [fst snd]. do 3 f_equal; lra.
Qed.

Lemma rotation_is_clockwise_witness :
  exists (r : loc) (h' : heap),
    calculate_clockwise_rotated_2d_point 0%nat 30 (1, 1)
      {[ 0%nat := [(2, 3)] ]} = Returned (r, h')
    /\ h' !! r =
         Some (map (fun p : point =>
                      let t := deg2rad 30 in
                      (cos t * (p.1 - 1) + sin t * (p.2 - 1) + 1,
                       - sin t * (p.1 - 1) + cos t * (p.2 - 1) + 1)) [(2, 3)]).
Proof.
  exact (proj1 (rotation_is_clockwise {[ 0%nat := [(2, 3)] ]} 0%nat [(2, 3)] 30 (1, 1)
                  (lookup_singleton_eq 0%nat [(2, 3)]))).
Defined.

(** C7: rotating the rows of an array by an angle and then rotating the
    returned array by the opposite angle, about the same pivot, returns an
    array that holds the rows the first array held before the first call. *)
Theorem rotation_round_trip
    (h : heap) (points : loc) (rows : ndarray) (angle_deg : R) (c : point)
    (Hpoints : h !! points = Some rows) :
  exists (r1 r2 : loc) (h1 h2 : heap),
    calculate_clockwise_rotated_2d_point points angle_deg c h = Returned (r1, h1)
    /\ calculate_clockwise_rotated_2d_point r1 (- angle_deg) c h1 = Returned (r2, h2)
    /\ h2 !! r2 = Some rows.
Proof.
  eexists _, _, _, _. split; [apply (rotated_run _ _ _ _ _ Hpoints)|].
  split; [apply rotated_run; apply lookup_insert_eq|].
  rewrite lookup_insert_eq, map_map. f_equal.
  rewrite <- (map_id rows) at 2. apply map_ext. intros p.
  apply rotate_about_inverse.
Qed.

Lemma rotation_round_trip_witness :
  exists (r1 r2 : loc) (h1 h2 : heap),
    calculate_clockwise_rotated_2d_point 0%nat 30 (1, 1) {[ 0%nat := [(2, 3); (0, 5)] ]}
      = Returned (r1, h1)
    /\ calculate_clockwise_rotated_2d_point r1 (- 30) (1, 1) h1 = Returned (r2, h2)
    /\ h2 !! r2 = Some [(2, 3); (0, 5)].
Proof.
  exact (rotation_round_trip {[ 0%nat := [(2, 3); (0, 5)] ]} 0%nat [(2, 3); (0, 5)] 30 (1, 1)
           (lookup_singleton_eq 0%nat [(2, 3); (0, 5)])).
Defined.

(** C8: every row of the array returned by the rotation is as far from the
    pivot as the corresponding row of the input was, and the rotation by
    the angle 0 returns an array holding the rows of the input. *)
Theorem rotation_is_rigid
    (h : heap) (points : loc) (rows : ndarray) (angle_deg : R) (c : point)
    (Hpoints : h !! points = Some rows) :
  (exists (r : loc) (h' : heap) (out : ndarray),
      calculate_clockwise_rotated_2d_point points angle_deg c h = Returned (r, h')
      /\ h' !! r = Some out
      /\ Forall2 (fun p q : point => dist q c = dist p c) rows out)
  /\ (exists (r : loc) (h' : heap),
         calculate_clockwise_rotated_2d_point points 0 c h = Returned (r, h')
         /\ h' !! r = Some rows).
Proof.
  split.
  - eexists _, _, _. split; [apply (rotated_run _ _ _ _ _ Hpoints)|].
    split; [apply lookup_insert_eq|].
    clear Hpoints. induction rows as [|p rows IH]; cbn [map]; constructor.
    + apply rotate_about_dist.
    + exact IH.
  - eexists _, _. split; [apply (rotated_run _ _ _ _ _ Hpoints)|].
    rewrite lookup_insert_eq. f_equal.
    rewrite <- (map_id rows) at 2. apply map_ext. intros p. apply rotate_about_0.
Qed.

Lemma rotation_is_rigid_witness :
  (exists (r : loc) (h' : heap) (out : ndarray),
      calculate_clockwise_rotated_2d_point 0%nat 30 (1, 1) {[ 0%nat := [(2, 3)] ]}
        = Returned (r, h')
      /\ h' !! r = Some out
      /\ Forall2 (fun p q : point => dist q (1, 1) = dist p (1, 1)) [(2, 3)] out)
  /\ (exists (r : loc) (h' : heap),
         calculate_clockwise_rotated_2d_point 0%nat 0 (1, 1) {[ 0%nat := [(2, 3)] ]}
           = Returned (r, h')
         /\ h' !! r = Some [(2, 3)]).
Proof.
  exact (rotation_is_rigid {[ 0%nat := [(2, 3)] ]} 0%nat [(2, 3)] 30 (1, 1)
           (lookup_singleton_eq 0%nat [(2, 3)])).
Defined.

(** ** Rectangle vertices *)

Lemma axis_aligned_vertices (center : point) (width height : R) :
  calculate_vertices_of_axis_aligned_rectangle center width height =
    Returned [(center.1 - width / 2, center.2 + height / 2);
              (center.1 + width / 2, center.2 + height / 2);
              (center.1 + width / 2, center.2 - height / 2);
              (center.1 - width / 2, center.2 - height / 2)].
Proof.
  unfold calculate_vertices_of_axis_aligned_rectangle, vec_add, mret, result_ret.
  cbn [fst snd]. do 2 f_equal; [|f_equal; [|f_equal; [|f_equal]]]; f_equal; lra.
Qed.

Lemma rotated_rectangle_run (center : point) (width height angle_deg : R) (h : heap)
    (corners : ndarray) :
  calculate_vertices_of_axis_aligned_rectangle center width height = Returned corners ->
  exists (r : loc) (h' : heap),
    calculate_vertices_of_rotated_rectangle center width height angle_deg h = Returned (r, h')
    /\ h' !! r = Some (map (rotate_about angle_deg center) corners).
Proof.
  intros Hc. unfold calculate_vertices_of_rotated_rectangle. rewrite Hc.
  unfold mbind at 1, M_bind, lift. unfold mbind at 1, M_bind, alloc.
  set (v := fresh (dom h)). set (h0 := <[v := corners]> h).
  assert (Hv : h0 !! v = Some corners) by apply lookup_insert_eq.
  rewrite (M_bind_Returned _ _ _ _ _ (rotated_run _ angle_deg center _ _ Hv)).
  eexists _, _. split; [reflexivity|]. apply lookup_insert_eq.
Qed.

(** C3, as the code has it: for every centroid, width, height and angle,
    also a width or a height that is zero or negative, both constructions
    raise nothing and return four vertices: the corners
    centroid + (+-width/2, +-height/2), rotated about the centroid in the
    rotated construction. *)
Theorem rectangle_vertices_never_raise
    (center : point) (width height angle_deg : R) (h : heap) :
  let corners := [(center.1 - width / 2, center.2 + height / 2);
                  (center.1 + width / 2, center.2 + height / 2);
                  (center.1 + width / 2, center.2 - height / 2);
                  (center.1 - width / 2, center.2 - height / 2)] in
  calculate_vertices_of_axis_aligned_rectangle center width height = Returned corners
  /\ exists (r : loc) (h' : heap),
       calculate_vertices_of_rotated_rectangle center width height angle_deg h
         = Returned (r, h')
       /\ h' !! r = Some (map (rotate_about angle_deg center) corners).
Proof.
  intros corners. split; [apply axis_aligned_vertices|].
  apply rotated_rectangle_run, axis_aligned_vertices.
Qed.

(** C3, refuted as stated: with width 0 and height -2 the axis-aligned
    construction returns a vertex set, and so does the rotated one; neither
    raises. *)
Lemma nonpositive_rectangle_is_accepted :
  let width := 0 in
  let height := -2 in
  (width <= 0 /\ height <= 0)
  /\ calculate_vertices_of_axis_aligned_rectangle (0, 0) width height
       = Returned [(0, -1); (0, -1); (0, 1); (0, 1)]
  /\ (forall e : exn,
         calculate_vertices_of_axis_aligned_rectangle (0, 0) width height <> Raised e)
  /\ (forall e : exn,
         calculate_vertices_of_rotated_rectangle (0, 0) width height 0 ∅ <> Raised e).
Proof.
  intros width height.
  assert (Hv : calculate_vertices_of_axis_aligned_rectangle (0, 0) width height
               = Returned [(0, -1); (0, -1); (0, 1); (0, 1)]).
  { rewrite axis_aligned_vertices. unfold width, height. cbn [fst snd].
    do 2 f_equal; [|f_equal; [|f_equal; [|f_equal]]]; f_equal; lra. }
  split; [unfold width, height; lra|]. split; [exact Hv|]. split.
  - intros e. rewrite Hv. discriminate.
  - intros e. destruct (rotated_rectangle_run (0, 0) width height 0 ∅ _ Hv)
      as (r & h' & Hrun & _).
    rewrite Hrun. discriminate.
Qed.

(** C5: for the centroid (0, 0), the width 2 and the height 4 the corners
    are (-1, 2), (1, 2), (1, -2), (-1, -2), in this order; for every
    centroid, width and height the four corners are
    centroid + (-w/2, h/2), (w/2, h/2), (w/2, -h/2), (-w/2, -h/2), opposite
    corners add up to twice the centroid, and differ by (w, -h) and by
    (-w, -h). *)
Theorem axis_aligned_corners (center : point) (width height : R) :
  calculate_vertices_of_axis_aligned_rectangle (0, 0) 2 4
    = Returned [(-1, 2); (1, 2); (1, -2); (-1, -2)]
  /\ exists a b c d : point,
       calculate_vertices_of_axis_aligned_rectangle center width height
         = Returned [a; b; c; d]
       /\ a = vec_add center (- (width / 2), height / 2)
       /\ b = vec_add center (width / 2, height / 2)
       /\ c = vec_add center (width / 2, - (height / 2))
       /\ d = vec_add center (- (width / 2), - (height / 2))
       /\ vec_add a c = vec_add center center
       /\ vec_add b d = vec_add center center
       /\ vec_sub c a = (width, - height)
       /\ vec_sub d b = (- width, - height).
Proof.
  split.
  - rewrite axis_aligned_vertices. cbn [fst snd].
    do 2 f_equal; [|f_equal; [|f_equal; [|f_equal]]]; f_equal; lra.
  - eexists _, _, _, _. split; [apply axis_aligned_vertices|].
    unfold vec_add, vec_sub. cbn [fst snd].
    repeat split; f_equal; lra.
Qed.

(** ** Overlap of two segments of a line *)

(** Settles the [Rmin] and [Rmax] of a goal whose arguments linear
    arithmetic can compare, the innermost ones first. *)
Ltac minmax_numerals :=
  unfold Rmin, Rmax;
  repeat match goal with
    | |- context [Rle_dec ?u ?v] =>
        first [ destruct (Rle_dec u v) as [_|?]; [|exfalso; lra]
              | destruct (Rle_dec u v) as [?|_]; [exfalso; lra|] ];
        cbv iota
    end.

Lemma min2_Rmin (a b : R) : min2 a b = Rmin a b.
Proof. unfold min2, Rmin. destruct (Rlt_dec b a), (Rle_dec a b); lra. Qed.

Lemma max2_Rmax (a b : R) : max2 a b = Rmax a b.
Proof. unfold max2, Rmax. destruct (Rlt_dec a b), (Rle_dec a b); lra. Qed.

(** The start of a two-element segment is its smaller element and its stop
    the larger one, whatever their order in the array. *)
Lemma overlap_of_pairs (a b c d : R) :
  determine_overlap_between_aligned_segments [a; b] [c; d] =
    Returned (Rmax 0 (Rmin (Rmax c d) (Rmax a b) - Rmax (Rmin c d) (Rmin a b))).
Proof.
  unfold determine_overlap_between_aligned_segments, min_seq, max_seq.
  cbn [mbind result_bind fold_left]. unfold mret, result_ret.
  now rewrite !min2_Rmin, !max2_Rmax.
Qed.

(** C4: on two intervals given as (min, max) with min <= max, the overlap is
    [max(0, min(a.max, b.max) - max(a.min, b.min))]; it is 0 when the
    intervals are disjoint or touch in one point (in particular when one
    ends where or before the other starts), and otherwise it is the
    positive length [min(a.max, b.max) - max(a.min, b.min)]; the overlap of
    {0,2} and {1,3} is 1, of {0,1} and {1,2} is 0, of {0,5} and {1,2} is 1. *)
Theorem interval_overlap_formula (amin amax bmin bmax : R)
    (Ha : amin <= amax) (Hb : bmin <= bmax) :
  determine_overlap_between_aligned_segments [amin; amax] [bmin; bmax]
    = Returned (Rmax 0 (Rmin amax bmax - Rmax amin bmin))
  /\ (disjoint_or_touching amin amax bmin bmax ->
      determine_overlap_between_aligned_segments [amin; amax] [bmin; bmax] = Returned 0)
  /\ (amax <= bmin \/ bmax <= amin ->
      determine_overlap_between_aligned_segments [amin; amax] [bmin; bmax] = Returned 0)
  /\ (~ disjoint_or_touching amin amax bmin bmax ->
      0 < Rmin amax bmax - Rmax amin bmin
      /\ determine_overlap_between_aligned_segments [amin; amax] [bmin; bmax]
           = Returned (Rmin amax bmax - Rmax amin bmin))
  /\ determine_overlap_between_aligned_segments [0; 2] [1; 3] = Returned 1
  /\ determine_overlap_between_aligned_segments [0; 1] [1; 2] = Returned 0
  /\ determine_overlap_between_aligned_segments [0; 5] [1; 2] = Returned 1.
Proof.
  assert (Hval : determine_overlap_between_aligned_segments [amin; amax] [bmin; bmax]
                 = Returned (Rmax 0 (Rmin amax bmax - Rmax amin bmin))).
  { rewrite overlap_of_pairs. do 3 f_equal.
    - rewrite (Rmax_right amin amax Ha), (Rmax_right bmin bmax Hb). apply Rmin_comm.
    - rewrite (Rmin_left amin amax Ha), (Rmin_left bmin bmax Hb). apply Rmax_comm. }
  assert (Hzero : Rmin amax bmax - Rmax amin bmin <= 0 ->
                  determine_overlap_between_aligned_segments [amin; amax] [bmin; bmax]
                  = Returned 0).
  { intros Hle. rewrite Hval. f_equal. now apply Rmax_left. }
  assert (Hone : Rmin amax bmax - Rmax amin bmin <= 0 ->
                 disjoint_or_touching amin amax bmin bmax).
  { intros Hle x y [[Hx1 Hx2] [Hx3 Hx4]] [[Hy1 Hy2] [Hy3 Hy4]].
    revert Hle. unfold Rmin, Rmax.
    destruct (Rle_dec amax bmax), (Rle_dec amin bmin); lra. }
  split; [exact Hval|]. split; [|split; [|split]].
  - intros Htouch. apply Hzero.
    destruct (Rle_or_lt (Rmin amax bmax - Rmax amin bmin) 0) as [Hle|Hlt]; [exact Hle|].
    exfalso.
    assert (Hlo : common_point amin amax bmin bmax (Rmax amin bmin)).
    { revert Hlt. unfold common_point, Rmin, Rmax.
      destruct (Rle_dec amax bmax), (Rle_dec amin bmin); lra. }
    assert (Hhi : common_point amin amax bmin bmax (Rmin amax bmax)).
    { revert Hlt. unfold common_point, Rmin, Rmax.
      destruct (Rle_dec amax bmax), (Rle_dec amin bmin); lra. }
    pose proof (Htouch _ _ Hlo Hhi). lra.
  - intros Hsep. apply Hzero. revert Hsep. unfold Rmin, Rmax.
    destruct (Rle_dec amax bmax), (Rle_dec amin bmin); lra.
  - intros Hnot.
    destruct (Rle_or_lt (Rmin amax bmax - Rmax amin bmin) 0) as [Hle|Hlt].
    + exfalso. apply Hnot, Hone, Hle.
    + split; [exact Hlt|]. rewrite Hval. f_equal. apply Rmax_right. lra.
  - rewrite !overlap_of_pairs. repeat split; f_equal; minmax_numerals; lra.
Qed.

Lemma interval_overlap_formula_witness :
  determine_overlap_between_aligned_segments [0; 2] [1; 3]
    = Returned (Rmax 0 (Rmin 2 3 - Rmax 0 1)).
Proof.
  apply (interval_overlap_formula 0 2 1 3); lra.
Defined.

(** C10: on two-element segments the overlap does not depend on the order
    in which a segment lists its two ends: swapping the ends of the first
    segment, of the second, or of both leaves it unchanged, the start of a
    segment being its smaller element and its stop the larger. *)
Theorem overlap_ignores_endpoint_order (a b c d : R) :
  determine_overlap_between_aligned_segments [b; a] [c; d]
    = determine_overlap_between_aligned_segments [a; b] [c; d]
  /\ determine_overlap_between_aligned_segments [a; b] [d; c]
    = determine_overlap_between_aligned_segments [a; b] [c; d]
  /\ determine_overlap_between_aligned_segments [b; a] [d; c]
    = determine_overlap_between_aligned_segments [a; b] [c; d]
  /\ determine_overlap_between_aligned_segments [a; b] [c; d]
    = Returned (Rmax 0 (Rmin (Rmax a b) (Rmax c d) - Rmax (Rmin a b) (Rmin c d))).
Proof.
  rewrite !overlap_of_pairs.
  rewrite (Rmax_comm b a), (Rmin_comm b a), (Rmax_comm d c), (Rmin_comm d c).
  repeat split.
  now rewrite (Rmin_comm (Rmax c d)), (Rmax_comm (Rmin c d)).
Qed.

(** ** Projection onto an axis *)

(** C9: the projection of the rows of an array onto an axis is the list of
    the dot products of the rows with the axis as it is given, of whatever
    length: the rows (1, 0) and (0, 2) projected onto (3, 4) give 3 and 8;
    and multiplying the axis by a scalar multiplies every projection by it. *)
Theorem projection_is_the_dot_product (points : ndarray) (axis : point) (k : R) :
  get_projected_distance_of_2d_points_onto_axis points axis
    = Returned (map (fun p : point => p.1 * axis.1 + p.2 * axis.2) points)
  /\ get_projected_distance_of_2d_points_onto_axis [(1, 0); (0, 2)] (3, 4)
    = Returned [3; 8]
  /\ exists projections : list R,
       get_projected_distance_of_2d_points_onto_axis points axis = Returned projections
       /\ length projections = length points
       /\ get_projected_distance_of_2d_points_onto_axis points (k * axis.1, k * axis.2)
            = Returned (map (Rmult k) projections).
Proof.
  unfold get_projected_distance_of_2d_points_onto_axis, dot, mret, result_ret.
  split; [reflexivity|]. split.
  - cbn [map fst snd]. do 3 f_equal; [lra|f_equal; lra].
  - eexists. split; [reflexivity|]. split; [apply length_map|].
    rewrite map_map. f_equal. apply map_ext. intros p. cbn [fst snd]. ring.
Qed.

(** ** Normalisation *)

Lemma norm_zeros (n : nat) : norm (repeat 0 n) = 0.
Proof.
  unfold norm. replace (fold_right Rplus 0 (map (fun x => x * x) (repeat 0 n))) with 0.
  - apply sqrt_0.
  - induction n as [|n IH]; cbn [repeat map fold_right]; [reflexivity|].
    rewrite <- IH. ring.
Qed.

Lemma true_divide_0_0 : true_divide 0 0 = NaN.
Proof.
  unfold true_divide.
  destruct (Req_dec_T 0 0) as [_|Hne]; [|now elim Hne].
  destruct (Req_dec_T 0 0) as [_|Hne]; [reflexivity|now elim Hne].
Qed.

(** C2, as the code has it: the normalisation of every vector returns a
    vector of the same dimension and raises nothing; on a vector of zeros,
    of any dimension, the division by the zero norm is performed and the
    result holds NaN in every component. *)
Theorem normalise_vector_never_raises :
  (forall vec : list R, exists out : list float64,
      normalise_vector vec = Returned out /\ length out = length vec)
  /\ (forall n : nat, normalise_vector (repeat 0 n) = Returned (repeat NaN n)).
Proof.
  split.
  - intros vec. eexists. split; [reflexivity|]. apply length_map.
  - intros n. unfold normalise_vector, mret, result_ret. rewrite norm_zeros. f_equal.
    induction n as [|n IH]; cbn [repeat map]; [reflexivity|].
    now rewrite true_divide_0_0, IH.
Qed.

(** C2, refuted as stated: the zero vector of the plane is normalised
    without an error; the call returns the vector (NaN, NaN). *)
Lemma normalise_zero_vector_returns_nan :
  normalise_vector [0; 0] = Returned [NaN; NaN]
  /\ forall e : exn, normalise_vector [0; 0] <> Raised e.
Proof.
  assert (Hv : normalise_vector [0; 0] = Returned [NaN; NaN]).
  { unfold normalise_vector, mret, result_ret.
    change (norm [0; 0]) with (norm (repeat 0 2)). rewrite norm_zeros.
    cbn [map]. now rewrite true_divide_0_0. }
  split; [exact Hv|]. intros e. rewrite Hv. discriminate.
Qed.

(** * Further properties *)

(** ** The rotation: its effect on the store *)

Lemma vec_sub_origin (p : point) : vec_sub p (0, 0) = p.
Proof. destruct p as [x y]. unfold vec_sub. cbn [fst snd]. f_equal; lra. Qed.

(** X1: The rotation writes to two arrays only: its argument and the new array
    it returns.  The new array is at a reference the store did not use, has
    as many rows as the argument, and every other array of the store holds
    after the call what it held before. *)
Theorem rotation_frame
    (h : heap) (points : loc) (rows : ndarray) (angle_deg : R) (c : point)
    (Hpoints : h !! points = Some rows) :
  exists (r : loc) (h' : heap) (out : ndarray),
    calculate_clockwise_rotated_2d_point points angle_deg c h = Returned (r, h')
    /\ h !! r = None
    /\ h' !! r = Some out
    /\ length out = length rows
    /\ forall l : loc, l <> points -> l <> r -> h' !! l = h !! l.
Proof.
  eexists _, _, _. split; [apply (rotated_run _ _ _ _ _ Hpoints)|].
  split; [apply fresh_unused|]. split; [apply lookup_insert_eq|].
  split; [apply length_map|].
  intros l Hl Hr. rewrite lookup_insert_ne by (intros E; apply Hr; symmetry; exact E).
  apply lookup_insert_ne. intros E; apply Hl; symmetry; exact E.
Qed.

Lemma rotation_frame_witness :
  exists (r : loc) (h' : heap) (out : ndarray),
    calculate_clockwise_rotated_2d_point 0%nat 30 (1, 1) {[ 0%nat := [(2, 3); (0, 5)] ]}
      = Returned (r, h')
    /\ ({[ 0%nat := [(2, 3); (0, 5)] ]} : heap) !! r = None
    /\ h' !! r = Some out
    /\ length out = length [(2, 3); (0, 5)]
    /\ forall l : loc, l <> 0%nat -> l <> r ->
         h' !! l = ({[ 0%nat := [(2, 3); (0, 5)] ]} : heap) !! l.
Proof.
  exact (rotation_frame {[ 0%nat := [(2, 3); (0, 5)] ]} 0%nat [(2, 3); (0, 5)] 30 (1, 1)
           (lookup_singleton_eq 0%nat [(2, 3); (0, 5)])).
Defined.

(** X2: After the call the argument array holds every row it held before minus
    the pivot, whatever the angle; with the default pivot (0, 0) the
    argument therefore holds its rows unchanged. *)
Theorem rotation_leaves_argument_translated
    (h : heap) (points : loc) (rows : ndarray) (angle_deg : R) (c : point)
    (Hpoints : h !! points = Some rows) :
  (exists (r : loc) (h' : heap),
      calculate_clockwise_rotated_2d_point points angle_deg c h = Returned (r, h')
      /\ h' !! points = Some (map (fun p : point => (p.1 - c.1, p.2 - c.2)) rows))
  /\ (exists (r : loc) (h' : heap),
         calculate_clockwise_rotated_2d_point points angle_deg default_center_of_rotation h
           = Returned (r, h')
         /\ h' !! points = Some rows).
Proof.
  pose proof (fresh_neq _ _ _ Hpoints) as Hne.
  split.
  - eexists _, _. split; [apply (rotated_run _ _ _ _ _ Hpoints)|].
    rewrite lookup_insert_ne by (intros E; apply Hne; symmetry; exact E).
    apply lookup_insert_eq.
  - eexists _, _. split; [apply (rotated_run _ _ _ _ _ Hpoints)|].
    rewrite lookup_insert_ne by (intros E; apply Hne; symmetry; exact E).
    rewrite lookup_insert_eq. f_equal.
    rewrite <- (map_id rows) at 2. apply map_ext. intros p. apply vec_sub_origin.
Qed.

Lemma rotation_leaves_argument_translated_witness :
  (exists (r : loc) (h' : heap),
      calculate_clockwise_rotated_2d_point 0%nat 30 (1, 1) {[ 0%nat := [(2, 3)] ]}
        = Returned (r, h')
      /\ h' !! 0%nat = Some (map (fun p : point => (p.1 - 1, p.2 - 1)) [(2, 3)]))
  /\ (exists (r : loc) (h' : heap),
         calculate_clockwise_rotated_2d_point 0%nat 30 default_center_of_rotation
           {[ 0%nat := [(2, 3)] ]} = Returned (r, h')
         /\ h' !! 0%nat = Some [(2, 3)]).
Proof.
  exact (rotation_leaves_argument_translated {[ 0%nat := [(2, 3)] ]} 0%nat [(2, 3)] 30 (1, 1)
           (lookup_singleton_eq 0%nat [(2, 3)])).
Defined.

(** An array that is not an object of the store makes the rotation raise
    [TypeError], and the store is not extended. *)
Lemma rotation_of_no_array (h : heap) (points : loc) (angle_deg : R) (c : point) :
  h !! points = None ->
  calculate_clockwise_rotated_2d_point points angle_deg c h = Raised TypeError.
Proof.
  intros Hp. unfold calculate_clockwise_rotated_2d_point, isub, load.
  unfold mbind, M_bind. now rewrite Hp.
Qed.

(** ** The rotation: angles *)

Lemma deg2rad_plus (a b : R) : deg2rad (a + b) = deg2rad a + deg2rad b.
Proof. unfold deg2rad. lra. Qed.

Lemma deg2rad_180 : deg2rad 180 = PI.
Proof. unfold deg2rad. lra. Qed.

Lemma deg2rad_360 : deg2rad 360 = 2 * PI.
Proof. unfold deg2rad. lra. Qed.

Lemma rotate_about_plus (a b : R) (c p : point) :
  rotate_about b c (rotate_about a c p) = rotate_about (a + b) c p.
Proof.
  destruct p as [x y], c as [cx cy].
  rewrite (rotate_about_formula (a + b)), deg2rad_plus, cos_plus, sin_plus.
  rewrite (rotate_about_formula b), (rotate_about_formula a). cbn [fst snd].
  f_equal; ring.
Qed.

Lemma rotate_about_180 (c p : point) :
  rotate_about 180 c p = (2 * c.1 - p.1, 2 * c.2 - p.2).
Proof.
  destruct p as [x y], c as [cx cy].
  rewrite rotate_about_formula, deg2rad_180, cos_PI, sin_PI. cbn [fst snd].
  f_equal; ring.
Qed.

Lemma rotate_about_360 (c p : point) : rotate_about 360 c p = p.
Proof.
  destruct p as [x y], c as [cx cy].
  rewrite rotate_about_formula, deg2rad_360, cos_2PI, sin_2PI. cbn [fst snd].
  f_equal; ring.
Qed.

Lemma rotate_about_pivot (angle_deg : R) (c : point) : rotate_about angle_deg c c = c.
Proof.
  destruct c as [cx cy]. rewrite rotate_about_formula. cbn [fst snd]. f_equal; ring.
Qed.

Lemma rotate_about_isometry (angle_deg : R) (c p q : point) :
  dist (rotate_about angle_deg c p) (rotate_about angle_deg c q) = dist p q.
Proof.
  destruct p as [x y], q as [u v], c as [cx cy]. rewrite !rotate_about_formula.
  unfold dist. cbn [fst snd].
  pose proof (sin_cos_square (deg2rad angle_deg)) as Hsc.
  set (s := sin (deg2rad angle_deg)) in *. set (k := cos (deg2rad angle_deg)) in *.
  f_equal.
  replace ((k * (x - cx) + s * (y - cy) + cx - (k * (u - cx) + s * (v - cy) + cx))
           * (k * (x - cx) + s * (y - cy) + cx - (k * (u - cx) + s * (v - cy) + cx))
           + (- s * (x - cx) + k * (y - cy) + cy - (- s * (u - cx) + k * (v - cy) + cy))
             * (- s * (x - cx) + k * (y - cy) + cy - (- s * (u - cx) + k * (v - cy) + cy)))
    with ((s * s + k * k) * ((x - u) * (x - u) + (y - v) * (y - v))) by ring.
  rewrite Hsc. ring.
Qed.

(** X3: Rotating by an angle and then rotating the returned array by a second
    angle about the same pivot gives the rows that one rotation of the
    original rows by the sum of the two angles gives. *)
Theorem rotation_composes
    (h : heap) (points : loc) (rows : ndarray) (a b : R) (c : point)
    (Hpoints : h !! points = Some rows) :
  exists (r1 r2 r3 : loc) (h1 h2 h3 : heap) (out : ndarray),
    calculate_clockwise_rotated_2d_point points a c h = Returned (r1, h1)
    /\ calculate_clockwise_rotated_2d_point r1 b c h1 = Returned (r2, h2)
    /\ calculate_clockwise_rotated_2d_point points (a + b) c h = Returned (r3, h3)
    /\ h2 !! r2 = Some out
    /\ h3 !! r3 = Some out.
Proof.
  eexists _, _, _, _, _, _, _. split; [apply (rotated_run _ _ _ _ _ Hpoints)|].
  split; [apply rotated_run; apply lookup_insert_eq|].
  split; [apply (rotated_run _ _ _ _ _ Hpoints)|].
  split; [apply lookup_insert_eq|].
  rewrite lookup_insert_eq, map_map. f_equal.
  apply map_ext. intros p. symmetry. apply rotate_about_plus.
Qed.

Lemma rotation_composes_witness :
  exists (r1 r2 r3 : loc) (h1 h2 h3 : heap) (out : ndarray),
    calculate_clockwise_rotated_2d_point 0%nat 30 (1, 1) {[ 0%nat := [(2, 3)] ]}
      = Returned (r1, h1)
    /\ calculate_clockwise_rotated_2d_point r1 45 (1, 1) h1 = Returned (r2, h2)
    /\ calculate_clockwise_rotated_2d_point 0%nat (30 + 45) (1, 1) {[ 0%nat := [(2, 3)] ]}
      = Returned (r3, h3)
    /\ h2 !! r2 = Some out
    /\ h3 !! r3 = Some out.
Proof.
  exact (rotation_composes {[ 0%nat := [(2, 3)] ]} 0%nat [(2, 3)] 30 45 (1, 1)
           (lookup_singleton_eq 0%nat [(2, 3)])).
Defined.

(** X4: A rotation by 180 degrees returns the reflection [2 c - p] of every row
    [p] in the pivot [c], and a rotation by 360 degrees returns the rows of
    the input. *)
Theorem rotation_half_and_full_turn
    (h : heap) (points : loc) (rows : ndarray) (c : point)
    (Hpoints : h !! points = Some rows) :
  (exists (r : loc) (h' : heap),
      calculate_clockwise_rotated_2d_point points 180 c h = Returned (r, h')
      /\ h' !! r = Some (map (fun p : point => (2 * c.1 - p.1, 2 * c.2 - p.2)) rows))
  /\ (exists (r : loc) (h' : heap),
         calculate_clockwise_rotated_2d_point points 360 c h = Returned (r, h')
         /\ h' !! r = Some rows).
Proof.
  split.
  - eexists _, _. split; [apply (rotated_run _ _ _ _ _ Hpoints)|].
    rewrite lookup_insert_eq. f_equal. apply map_ext. intros p. apply rotate_about_180.
  - eexists _, _. split; [apply (rotated_run _ _ _ _ _ Hpoints)|].
    rewrite lookup_insert_eq. f_equal.
    rewrite <- (map_id rows) at 2. apply map_ext. intros p. apply rotate_about_360.
Qed.

Lemma rotation_half_and_full_turn_witness :
  (exists (r : loc) (h' : heap),
      calculate_clockwise_rotated_2d_point 0%nat 180 (1, 1) {[ 0%nat := [(2, 3)] ]}
        = Returned (r, h')
      /\ h' !! r = Some (map (fun p : point => (2 * 1 - p.1, 2 * 1 - p.2)) [(2, 3)]))
  /\ (exists (r : loc) (h' : heap),
         calculate_clockwise_rotated_2d_point 0%nat 360 (1, 1) {[ 0%nat := [(2, 3)] ]}
           = Returned (r, h')
         /\ h' !! r = Some [(2, 3)]).
Proof.
  exact (rotation_half_and_full_turn {[ 0%nat := [(2, 3)] ]} 0%nat [(2, 3)] (1, 1)
           (lookup_singleton_eq 0%nat [(2, 3)])).
Defined.

(** X5: The rotation keeps the distance between any two rows: the rows at the
    positions [i] and [j] of the returned array are as far from each other
    as the rows at these positions of the input; and a row that is the
    pivot is returned as it is. *)
Theorem rotation_is_an_isometry
    (h : heap) (points : loc) (rows : ndarray) (angle_deg : R) (c : point)
    (Hpoints : h !! points = Some rows) :
  exists (r : loc) (h' : heap) (out : ndarray),
    calculate_clockwise_rotated_2d_point points angle_deg c h = Returned (r, h')
    /\ h' !! r = Some out
    /\ (forall (i j : nat) (p q p' q' : point),
          nth_error rows i = Some p -> nth_error rows j = Some q ->
          nth_error out i = Some p' -> nth_error out j = Some q' ->
          dist p' q' = dist p q)
    /\ (forall i : nat, nth_error rows i = Some c -> nth_error out i = Some c).
Proof.
  eexists _, _, _. split; [apply (rotated_run _ _ _ _ _ Hpoints)|].
  split; [apply lookup_insert_eq|]. split.
  - intros i j p q p' q' Hp Hq Hp' Hq'.
    rewrite (map_nth_error _ _ _ Hp) in Hp'. rewrite (map_nth_error _ _ _ Hq) in Hq'.
    injection Hp' as <-. injection Hq' as <-. apply rotate_about_isometry.
  - intros i Hi. rewrite (map_nth_error _ _ _ Hi). f_equal. apply rotate_about_pivot.
Qed.

Lemma rotation_is_an_isometry_witness :
  exists (r : loc) (h' : heap) (out : ndarray),
    calculate_clockwise_rotated_2d_point 0%nat 30 (1, 1) {[ 0%nat := [(2, 3); (1, 1)] ]}
      = Returned (r, h')
    /\ h' !! r = Some out
    /\ (forall (i j : nat) (p q p' q' : point),
          nth_error [(2, 3); (1, 1)] i = Some p -> nth_error [(2, 3); (1, 1)] j = Some q ->
          nth_error out i = Some p' -> nth_error out j = Some q' ->
          dist p' q' = dist p q)
    /\ (forall i : nat,
          nth_error [(2, 3); (1, 1)] i = Some (1, 1) -> nth_error out i = Some (1, 1)).
Proof.
  exact (rotation_is_an_isometry {[ 0%nat := [(2, 3); (1, 1)] ]} 0%nat [(2, 3); (1, 1)]
           30 (1, 1) (lookup_singleton_eq 0%nat [(2, 3); (1, 1)])).
Defined.

(** ** The rotated rectangle *)

(** The corners of the axis-aligned rectangle, as [axis_aligned_vertices]
    gives them. *)
Lemma rotated_rectangle_vertices (center : point) (width height angle_deg : R) (h : heap) :
  exists (r : loc) (h' : heap),
    calculate_vertices_of_rotated_rectangle center width height angle_deg h = Returned (r, h')
    /\ h' !! r =
         Some (map (rotate_about angle_deg center)
                 [(center.1 - width / 2, center.2 + height / 2);
                  (center.1 + width / 2, center.2 + height / 2);
                  (center.1 + width / 2, center.2 - height / 2);
                  (center.1 - width / 2, center.2 - height / 2)]).
Proof. apply rotated_rectangle_run, axis_aligned_vertices. Qed.

(** X6: Unlike the rotation it calls, the construction of a rotated rectangle
    writes to no array of its caller: it returns a reference the store did
    not use, and every array of the store holds after the call what it held
    before. *)
Theorem rotated_rectangle_writes_new_arrays_only
    (center : point) (width height angle_deg : R) (h : heap) :
  exists (r : loc) (h' : heap) (out : ndarray),
    calculate_vertices_of_rotated_rectangle center width height angle_deg h = Returned (r, h')
    /\ h !! r = None
    /\ h' !! r = Some out
    /\ length out = 4%nat
    /\ forall (l : loc) (a : ndarray), h !! l = Some a -> h' !! l = Some a.
Proof.
  unfold calculate_vertices_of_rotated_rectangle.
  rewrite axis_aligned_vertices.
  unfold mbind at 1, M_bind, lift. unfold mbind at 1, M_bind, alloc.
  set (corners := [_; _; _; _]).
  set (v := fresh (dom h)). set (h0 := <[v := corners]> h).
  assert (Hv : h0 !! v = Some corners) by apply lookup_insert_eq.
  rewrite (M_bind_Returned _ _ _ _ _ (rotated_run _ angle_deg center _ _ Hv)).
  set (r := fresh (dom h0)).
  assert (Hr0 : h0 !! r = None) by apply fresh_unused.
  assert (Hrv : r <> v).
  { intros E. rewrite E, Hv in Hr0. discriminate. }
  assert (Hr : h !! r = None).
  { unfold h0 in Hr0. rewrite lookup_insert_ne in Hr0 by (intros E; apply Hrv; symmetry; exact E).
    exact Hr0. }
  eexists _, _, _. split; [reflexivity|]. split; [exact Hr|].
  split; [apply lookup_insert_eq|]. split; [reflexivity|].
  intros l a Hl.
  assert (Hlv : l <> v) by (intros E; rewrite E in Hl; unfold v in Hl; rewrite fresh_unused in Hl; discriminate).
  assert (Hlr : l <> r) by (intros E; rewrite E, Hr in Hl; discriminate).
  rewrite lookup_insert_ne by (intros E; apply Hlr; symmetry; exact E).
  rewrite lookup_insert_ne by (intros E; apply Hlv; symmetry; exact E).
  unfold h0. rewrite lookup_insert_ne by (intros E; apply Hlv; symmetry; exact E).
  exact Hl.
Qed.

(** X7: With the angle 0 the rotated rectangle has the corners of the
    axis-aligned one; a quarter turn (90 degrees) gives the corners of the
    axis-aligned rectangle with width and height exchanged, starting from
    its second corner; a half turn (180 degrees) gives the corners of the
    axis-aligned rectangle starting from its third corner. *)
Theorem rotated_rectangle_quarter_turns
    (center : point) (width height : R) (h : heap) :
  (exists (r : loc) (h' : heap),
      calculate_vertices_of_rotated_rectangle center width height 0 h = Returned (r, h')
      /\ h' !! r = Some [(center.1 - width / 2, center.2 + height / 2);
                         (center.1 + width / 2, center.2 + height / 2);
                         (center.1 + width / 2, center.2 - height / 2);
                         (center.1 - width / 2, center.2 - height / 2)])
  /\ (exists (r : loc) (h' : heap),
         calculate_vertices_of_rotated_rectangle center width height 90 h = Returned (r, h')
         /\ h' !! r = Some [(center.1 + height / 2, center.2 + width / 2);
                            (center.1 + height / 2, center.2 - width / 2);
                            (center.1 - height / 2, center.2 - width / 2);
                            (center.1 - height / 2, center.2 + width / 2)])
  /\ (exists (r : loc) (h' : heap),
         calculate_vertices_of_rotated_rectangle center width height 180 h = Returned (r, h')
         /\ h' !! r = Some [(center.1 + width / 2, center.2 - height / 2);
                            (center.1 - width / 2, center.2 - height / 2);
                            (center.1 - width / 2, center.2 + height / 2);
                            (center.1 + width / 2, center.2 + height / 2)]).
Proof.
  destruct center as [cx cy]. cbn [fst snd]. split; [|split].
  - destruct (rotated_rectangle_vertices (cx, cy) width height 0 h) as (r & h' & Hrun & Hr).
    exists r, h'. split; [exact Hrun|]. rewrite Hr. cbn [map fst snd].
    now rewrite !rotate_about_0.
  - destruct (rotated_rectangle_vertices (cx, cy) width height 90 h) as (r & h' & Hrun & Hr).
    exists r, h'. split; [exact Hrun|]. rewrite Hr. cbn [map fst snd].
    rewrite !rotate_about_formula, deg2rad_90, cos_PI2, sin_PI2. cbn [fst snd].
    do 2 f_equal; [|f_equal; [|f_equal; [|f_equal]]]; f_equal; lra.
  - destruct (rotated_rectangle_vertices (cx, cy) width height 180 h) as (r & h' & Hrun & Hr).
    exists r, h'. split; [exact Hrun|]. rewrite Hr. cbn [map fst snd].
    rewrite !rotate_about_180. cbn [fst snd].
    do 2 f_equal; [|f_equal; [|f_equal; [|f_equal]]]; f_equal; lra.
Qed.

Lemma dist_horizontal (x1 x2 y : R) : dist (x1, y) (x2, y) = Rabs (x1 - x2).
Proof.
  unfold dist. cbn [fst snd]. rewrite <- sqrt_Rsqr_abs. f_equal. unfold Rsqr. ring.
Qed.

Lemma dist_vertical (x y1 y2 : R) : dist (x, y1) (x, y2) = Rabs (y1 - y2).
Proof.
  unfold dist. cbn [fst snd]. rewrite <- sqrt_Rsqr_abs. f_equal. unfold Rsqr. ring.
Qed.

Lemma rotate_about_opposite (angle_deg : R) (c p q : point) :
  vec_add p q = vec_add c c ->
  vec_add (rotate_about angle_deg c p) (rotate_about angle_deg c q) = vec_add c c.
Proof.
  destruct p as [x y], q as [u v], c as [cx cy]. unfold vec_add at 1 2. cbn [fst snd].
  intros E. injection E as Ex Ey.
  rewrite !rotate_about_formula. unfold vec_add. cbn [fst snd].
  replace u with (cx + cx - x) by lra. replace v with (cy + cy - y) by lra.
  f_equal; ring.
Qed.

(** X8: Whatever the angle, the rotated rectangle is congruent to the
    axis-aligned one: its four vertices, in the order returned, are joined
    by sides of the lengths |width|, |height|, |width|, |height|, each vertex
    is half a diagonal away from the centroid, and the centroid is the
    midpoint of both diagonals. *)
Theorem rotated_rectangle_keeps_its_shape
    (center : point) (width height angle_deg : R) (h : heap) :
  exists (r : loc) (h' : heap) (a b c d : point),
    calculate_vertices_of_rotated_rectangle center width height angle_deg h = Returned (r, h')
    /\ h' !! r = Some [a; b; c; d]
    /\ (dist a b = Rabs width /\ dist b c = Rabs height
        /\ dist c d = Rabs width /\ dist d a = Rabs height)
    /\ (let half_diagonal := sqrt (width / 2 * (width / 2) + height / 2 * (height / 2)) in
        dist a center = half_diagonal /\ dist b center = half_diagonal
        /\ dist c center = half_diagonal /\ dist d center = half_diagonal)
    /\ vec_add a c = vec_add center center
    /\ vec_add b d = vec_add center center.
Proof.
  destruct center as [cx cy].
  destruct (rotated_rectangle_vertices (cx, cy) width height angle_deg h)
    as (r & h' & Hrun & Hr).
  cbn [map fst snd] in Hr.
  eexists r, h', _, _, _, _. split; [exact Hrun|]. split; [exact Hr|].
  split; [|split; [|split]].
  - rewrite !rotate_about_isometry, !dist_horizontal, !dist_vertical.
    repeat split.
    + rewrite <- Rabs_Ropp. f_equal. lra.
    + f_equal. lra.
    + f_equal. lra.
    + rewrite <- Rabs_Ropp. f_equal. lra.
  - cbv zeta. rewrite !rotate_about_dist. unfold dist. cbn [fst snd].
    repeat split; f_equal; ring.
  - apply rotate_about_opposite. unfold vec_add. cbn [fst snd]. f_equal; lra.
  - apply rotate_about_opposite. unfold vec_add. cbn [fst snd]. f_equal; lra.
Qed.

(** ** The built-ins [min] and [max] on sequences *)

Lemma fold_left_min2_least (rest : list R) (x : R) :
  least (fold_left min2 rest x) (x :: rest).
Proof.
  revert x. induction rest as [|y rest IH]; intros x.
  - split; [now left|]. intros z [<-|[]]. cbn. lra.
  - cbn [fold_left]. destruct (IH (min2 x y)) as [Hin Hle].
    assert (Hxy : (min2 x y = x \/ min2 x y = y) /\ min2 x y <= x /\ min2 x y <= y).
    { unfold min2. destruct (Rlt_dec y x); lra. }
    destruct Hxy as (Hcase & Hx & Hy). split.
    + destruct Hin as [E|Hin]; [|now right; right].
      rewrite <- E. destruct Hcase as [->| ->]; [now left|now right; left].
    + intros z [<-|[<-|Hz]].
      * apply Rle_trans with (min2 x y); [apply Hle; now left|exact Hx].
      * apply Rle_trans with (min2 x y); [apply Hle; now left|exact Hy].
      * apply Hle. now right.
Qed.

Lemma fold_left_max2_greatest (rest : list R) (x : R) :
  greatest (fold_left max2 rest x) (x :: rest).
Proof.
  revert x. induction rest as [|y rest IH]; intros x.
  - split; [now left|]. intros z [<-|[]]. cbn. lra.
  - cbn [fold_left]. destruct (IH (max2 x y)) as [Hin Hle].
    assert (Hxy : (max2 x y = x \/ max2 x y = y) /\ x <= max2 x y /\ y <= max2 x y).
    { unfold max2. destruct (Rlt_dec x y); lra. }
    destruct Hxy as (Hcase & Hx & Hy). split.
    + destruct Hin as [E|Hin]; [|now right; right].
      rewrite <- E. destruct Hcase as [->| ->]; [now left|now right; left].
    + intros z [<-|[<-|Hz]].
      * apply Rle_trans with (max2 x y); [exact Hx|apply Hle; now left].
      * apply Rle_trans with (max2 x y); [exact Hy|apply Hle; now left].
      * apply Hle. now right.
Qed.

Lemma least_unique (m m' : R) (xs : list R) : least m xs -> least m' xs -> m = m'.
Proof. intros [Hin Hle] [Hin' Hle']. apply Rle_antisym; auto. Qed.

Lemma greatest_unique (m m' : R) (xs : list R) : greatest m xs -> greatest m' xs -> m = m'.
Proof. intros [Hin Hle] [Hin' Hle']. apply Rle_antisym; auto. Qed.

Lemma min_seq_least (m : R) (xs : list R) : least m xs -> min_seq xs = Returned m.
Proof.
  intros Hm. destruct xs as [|x rest]; [destruct Hm as [[] _]|].
  cbn [min_seq]. f_equal. apply least_unique with (x :: rest); [|exact Hm].
  apply fold_left_min2_least.
Qed.

Lemma max_seq_greatest (m : R) (xs : list R) : greatest m xs -> max_seq xs = Returned m.
Proof.
  intros Hm. destruct xs as [|x rest]; [destruct Hm as [[] _]|].
  cbn [max_seq]. f_equal. apply greatest_unique with (x :: rest); [|exact Hm].
  apply fold_left_max2_greatest.
Qed.

Lemma min_seq_nonempty (xs : list R) :
  xs <> [] -> exists m : R, min_seq xs = Returned m /\ least m xs.
Proof.
  destruct xs as [|x rest]; [intros E; now elim E|]. intros _.
  eexists. split; [reflexivity|]. apply fold_left_min2_least.
Qed.

Lemma max_seq_nonempty (xs : list R) :
  xs <> [] -> exists m : R, max_seq xs = Returned m /\ greatest m xs.
Proof.
  destruct xs as [|x rest]; [intros E; now elim E|]. intros _.
  eexists. split; [reflexivity|]. apply fold_left_max2_greatest.
Qed.

Lemma overlap_of_bounds (lo1 hi1 lo2 hi2 : R) (segment1 segment2 : list R) :
  least lo1 segment1 -> greatest hi1 segment1 ->
  least lo2 segment2 -> greatest hi2 segment2 ->
  determine_overlap_between_aligned_segments segment1 segment2
    = Returned (Rmax 0 (Rmin hi1 hi2 - Rmax lo1 lo2)).
Proof.
  intros Hlo1 Hhi1 Hlo2 Hhi2. unfold determine_overlap_between_aligned_segments.
  rewrite (min_seq_least _ _ Hlo1), (max_seq_greatest _ _ Hhi1).
  rewrite (min_seq_least _ _ Hlo2), (max_seq_greatest _ _ Hhi2).
  cbn [mbind result_bind]. unfold mret, result_ret.
  now rewrite min2_Rmin, !max2_Rmax, (Rmin_comm hi2), (Rmax_comm lo2).
Qed.

(** ** The overlap of segments of any length *)

(** X9: Only the least and the greatest element of each segment count: for
    segments of any length, in any order, the overlap is
    [max(0, min(hi1, hi2) - max(lo1, lo2))], [lo] and [hi] the least and the
    greatest element of a segment. *)
Theorem overlap_depends_on_extremes_only
    (lo1 hi1 lo2 hi2 : R) (segment1 segment2 : list R)
    (Hlo1 : least lo1 segment1) (Hhi1 : greatest hi1 segment1)
    (Hlo2 : least lo2 segment2) (Hhi2 : greatest hi2 segment2) :
  determine_overlap_between_aligned_segments segment1 segment2
    = Returned (Rmax 0 (Rmin hi1 hi2 - Rmax lo1 lo2)).
Proof.
  unfold determine_overlap_between_aligned_segments.
  rewrite (min_seq_least _ _ Hlo1), (max_seq_greatest _ _ Hhi1).
  rewrite (min_seq_least _ _ Hlo2), (max_seq_greatest _ _ Hhi2).
  cbn [mbind result_bind]. unfold mret, result_ret.
  rewrite min2_Rmin, !max2_Rmax. apply f_equal.
  now rewrite (Rmin_comm hi2), (Rmax_comm lo2).
Qed.

Lemma overlap_depends_on_extremes_only_witness :
  determine_overlap_between_aligned_segments [1; 0; 2] [3; 1; 2; 1]
    = Returned (Rmax 0 (Rmin 2 3 - Rmax 0 1)).
Proof.
  apply (overlap_depends_on_extremes_only 0 2 1 3 [1; 0; 2] [3; 1; 2; 1]).
  - split; [right; left; reflexivity|]. intros x [<-|[<-|[<-|[]]]]; lra.
  - split; [right; right; left; reflexivity|]. intros x [<-|[<-|[<-|[]]]]; lra.
  - split; [right; left; reflexivity|]. intros x [<-|[<-|[<-|[<-|[]]]]]; lra.
  - split; [left; reflexivity|]. intros x [<-|[<-|[<-|[<-|[]]]]]; lra.
Defined.

(** X10: An empty segment, in either position, makes the overlap raise
    [ValueError]. *)
Theorem overlap_of_empty_segment (segment1 segment2 : list R)
    (Hempty : segment1 = [] \/ segment2 = []) :
  determine_overlap_between_aligned_segments segment1 segment2 = Raised ValueError.
Proof.
  unfold determine_overlap_between_aligned_segments.
  destruct segment1 as [|x rest1]; [reflexivity|].
  destruct Hempty as [E|E]; [discriminate|]. subst segment2. reflexivity.
Qed.

Lemma overlap_of_empty_segment_witness :
  determine_overlap_between_aligned_segments [1; 2] [] = Raised ValueError.
Proof.
  apply (overlap_of_empty_segment [1; 2] []). right. reflexivity.
Defined.

(** X11: On two segments that are not empty the overlap is returned, is not
    negative, and does not exceed the length of any interval that contains
    all elements of one of the segments. *)
Theorem overlap_is_bounded (segment1 segment2 : list R)
    (H1 : segment1 <> []) (H2 : segment2 <> []) :
  exists v : R,
    determine_overlap_between_aligned_segments segment1 segment2 = Returned v
    /\ 0 <= v
    /\ (forall lo hi : R, (forall x : R, In x segment1 -> lo <= x <= hi) -> v <= hi - lo)
    /\ (forall lo hi : R, (forall x : R, In x segment2 -> lo <= x <= hi) -> v <= hi - lo).
Proof.
  destruct (min_seq_nonempty _ H1) as (lo1 & _ & Hlo1).
  destruct (max_seq_nonempty _ H1) as (hi1 & _ & Hhi1).
  destruct (min_seq_nonempty _ H2) as (lo2 & _ & Hlo2).
  destruct (max_seq_nonempty _ H2) as (hi2 & _ & Hhi2).
  eexists. split; [apply (overlap_of_bounds _ _ _ _ _ _ Hlo1 Hhi1 Hlo2 Hhi2)|].
  split; [apply Rmax_l|]. split.
  - intros lo hi Hall.
    pose proof (Hall _ (proj1 Hlo1)). pose proof (Hall _ (proj1 Hhi1)).
    pose proof (proj2 Hlo2 _ (proj1 Hhi2)).
    unfold Rmin, Rmax.
    repeat match goal with |- context [Rle_dec ?u ?v] => destruct (Rle_dec u v) end; lra.
  - intros lo hi Hall.
    pose proof (Hall _ (proj1 Hlo2)). pose proof (Hall _ (proj1 Hhi2)).
    pose proof (proj2 Hlo1 _ (proj1 Hhi1)).
    unfold Rmin, Rmax.
    repeat match goal with |- context [Rle_dec ?u ?v] => destruct (Rle_dec u v) end; lra.
Qed.

Lemma overlap_is_bounded_witness :
  exists v : R,
    determine_overlap_between_aligned_segments [0; 2] [1; 3] = Returned v
    /\ 0 <= v
    /\ (forall lo hi : R, (forall x : R, In x [0; 2] -> lo <= x <= hi) -> v <= hi - lo)
    /\ (forall lo hi : R, (forall x : R, In x [1; 3] -> lo <= x <= hi) -> v <= hi - lo).
Proof.
  apply (overlap_is_bounded [0; 2] [1; 3]); discriminate.
Defined.

(** X12: The overlap does not depend on which segment comes first, whether it
    is returned or raised. *)
Theorem overlap_is_symmetric (segment1 segment2 : list R) :
  determine_overlap_between_aligned_segments segment1 segment2
    = determine_overlap_between_aligned_segments segment2 segment1.
Proof.
  destruct segment1 as [|x rest1], segment2 as [|y rest2]; try reflexivity.
  assert (H1 : x :: rest1 <> []) by discriminate.
  assert (H2 : y :: rest2 <> []) by discriminate.
  destruct (min_seq_nonempty _ H1) as (lo1 & _ & Hlo1).
  destruct (max_seq_nonempty _ H1) as (hi1 & _ & Hhi1).
  destruct (min_seq_nonempty _ H2) as (lo2 & _ & Hlo2).
  destruct (max_seq_nonempty _ H2) as (hi2 & _ & Hhi2).
  rewrite (overlap_of_bounds _ _ _ _ _ _ Hlo1 Hhi1 Hlo2 Hhi2).
  rewrite (overlap_of_bounds _ _ _ _ _ _ Hlo2 Hhi2 Hlo1 Hhi1).
  now rewrite (Rmin_comm hi1), (Rmax_comm lo1).
Qed.

(** Case analysis on the [Rmin] and [Rmax] of a goal, the innermost first,
    so that every comparison is between terms without a comparison. *)
Ltac minmax_cases :=
  unfold Rmin, Rmax;
  repeat match goal with
    | |- context [Rle_dec ?u ?v] =>
        lazymatch u with context [Rle_dec _ _] => fail | _ => idtac end;
        lazymatch v with context [Rle_dec _ _] => fail | _ => idtac end;
        destruct (Rle_dec u v)
    end.

Lemma least_map_increasing (f : R -> R) (m : R) (xs : list R) :
  (forall x y : R, x <= y -> f x <= f y) -> least m xs -> least (f m) (map f xs).
Proof.
  intros Hf [Hin Hle]. split; [now apply in_map|].
  intros y Hy. apply in_map_iff in Hy as (x & <- & Hx). apply Hf, Hle, Hx.
Qed.

Lemma greatest_map_increasing (f : R -> R) (m : R) (xs : list R) :
  (forall x y : R, x <= y -> f x <= f y) -> greatest m xs -> greatest (f m) (map f xs).
Proof.
  intros Hf [Hin Hle]. split; [now apply in_map|].
  intros y Hy. apply in_map_iff in Hy as (x & <- & Hx). apply Hf, Hle, Hx.
Qed.

Lemma least_map_decreasing (f : R -> R) (m : R) (xs : list R) :
  (forall x y : R, x <= y -> f y <= f x) -> greatest m xs -> least (f m) (map f xs).
Proof.
  intros Hf [Hin Hle]. split; [now apply in_map|].
  intros y Hy. apply in_map_iff in Hy as (x & <- & Hx). apply Hf, Hle, Hx.
Qed.

Lemma greatest_map_decreasing (f : R -> R) (m : R) (xs : list R) :
  (forall x y : R, x <= y -> f y <= f x) -> least m xs -> greatest (f m) (map f xs).
Proof.
  intros Hf [Hin Hle]. split; [now apply in_map|].
  intros y Hy. apply in_map_iff in Hy as (x & <- & Hx). apply Hf, Hle, Hx.
Qed.

(** The extremes of two segments that are not empty. *)
Lemma segments_extremes (segment1 segment2 : list R) :
  segment1 <> [] -> segment2 <> [] ->
  exists lo1 hi1 lo2 hi2 : R,
    least lo1 segment1 /\ greatest hi1 segment1
    /\ least lo2 segment2 /\ greatest hi2 segment2.
Proof.
  intros H1 H2.
  destruct (min_seq_nonempty _ H1) as (lo1 & _ & Hlo1).
  destruct (max_seq_nonempty _ H1) as (hi1 & _ & Hhi1).
  destruct (min_seq_nonempty _ H2) as (lo2 & _ & Hlo2).
  destruct (max_seq_nonempty _ H2) as (hi2 & _ & Hhi2).
  now exists lo1, hi1, lo2, hi2.
Qed.

(** X13: Moving both segments along the line by the same amount, or mirroring
    both in the origin of the line, does not change their overlap (nor
    whether it is raised). *)
Theorem overlap_is_invariant_under_motion (t : R) (segment1 segment2 : list R) :
  determine_overlap_between_aligned_segments
      (map (fun x => x + t) segment1) (map (fun x => x + t) segment2)
    = determine_overlap_between_aligned_segments segment1 segment2
  /\ determine_overlap_between_aligned_segments
       (map (fun x => - x) segment1) (map (fun x => - x) segment2)
     = determine_overlap_between_aligned_segments segment1 segment2.
Proof.
  destruct segment1 as [|x rest1]; [split; reflexivity|].
  destruct segment2 as [|y rest2]; [split; reflexivity|].
  destruct (segments_extremes (x :: rest1) (y :: rest2))
    as (lo1 & hi1 & lo2 & hi2 & Hlo1 & Hhi1 & Hlo2 & Hhi2); try discriminate.
  rewrite (overlap_of_bounds _ _ _ _ _ _ Hlo1 Hhi1 Hlo2 Hhi2).
  split.
  - assert (Hf : forall u v : R, u <= v -> u + t <= v + t) by (intros; lra).
    rewrite (overlap_of_bounds _ _ _ _ _ _
               (least_map_increasing _ _ _ Hf Hlo1) (greatest_map_increasing _ _ _ Hf Hhi1)
               (least_map_increasing _ _ _ Hf Hlo2) (greatest_map_increasing _ _ _ Hf Hhi2)).
    apply f_equal. minmax_cases; lra.
  - assert (Hf : forall u v : R, u <= v -> - v <= - u) by (intros; lra).
    set (f := fun x : R => - x) in *.
    rewrite (overlap_of_bounds _ _ _ _ _ _
               (least_map_decreasing f _ _ Hf Hhi1) (greatest_map_decreasing f _ _ Hf Hlo1)
               (least_map_decreasing f _ _ Hf Hhi2) (greatest_map_decreasing f _ _ Hf Hlo2)).
    unfold f.
    apply f_equal. minmax_cases; lra.
Qed.

Lemma overlap_scaled_value (k lo1 hi1 lo2 hi2 : R) :
  0 <= k ->
  Rmax 0 (Rmin (k * hi1) (k * hi2) - Rmax (k * lo1) (k * lo2))
    = k * Rmax 0 (Rmin hi1 hi2 - Rmax lo1 lo2).
Proof.
  intros Hk.
  assert (Hmin : Rmin (k * hi1) (k * hi2) = k * Rmin hi1 hi2).
  { unfold Rmin. destruct (Rle_dec hi1 hi2) as [H|H], (Rle_dec (k * hi1) (k * hi2)) as [H'|H'];
      try reflexivity.
    - exfalso. apply H'. now apply Rmult_le_compat_l.
    - apply Rle_antisym; [exact H'|]. apply Rmult_le_compat_l; lra. }
  assert (Hmax : Rmax (k * lo1) (k * lo2) = k * Rmax lo1 lo2).
  { unfold Rmax. destruct (Rle_dec lo1 lo2) as [H|H], (Rle_dec (k * lo1) (k * lo2)) as [H'|H'];
      try reflexivity.
    - exfalso. apply H'. now apply Rmult_le_compat_l.
    - apply Rle_antisym; [|exact H']. apply Rmult_le_compat_l; lra. }
  rewrite Hmin, Hmax, <- Rmult_minus_distr_l.
  set (d := Rmin hi1 hi2 - Rmax lo1 lo2).
  unfold Rmax. destruct (Rle_dec 0 d) as [H|H], (Rle_dec 0 (k * d)) as [H'|H'];
    try ring.
  - exfalso. apply H'. now apply Rmult_le_pos.
  - assert (k * d <= 0).
    { rewrite <- (Rmult_0_r k). apply Rmult_le_compat_l; lra. }
    lra.
Qed.

(** X14: Stretching both segments by a factor stretches their overlap by the
    absolute value of the factor. *)
Theorem overlap_scales (k v : R) (segment1 segment2 : list R)
    (Hv : determine_overlap_between_aligned_segments segment1 segment2 = Returned v) :
  determine_overlap_between_aligned_segments
      (map (fun x => k * x) segment1) (map (fun x => k * x) segment2)
    = Returned (Rabs k * v).
Proof.
  destruct segment1 as [|x rest1]; [discriminate|].
  destruct segment2 as [|y rest2]; [discriminate|].
  destruct (segments_extremes (x :: rest1) (y :: rest2))
    as (lo1 & hi1 & lo2 & hi2 & Hlo1 & Hhi1 & Hlo2 & Hhi2); try discriminate.
  rewrite (overlap_of_bounds _ _ _ _ _ _ Hlo1 Hhi1 Hlo2 Hhi2) in Hv.
  injection Hv as <-.
  destruct (Rle_or_lt 0 k) as [Hk|Hk].
  - assert (Hf : forall u w : R, u <= w -> k * u <= k * w)
      by (intros; now apply Rmult_le_compat_l).
    set (f := fun x : R => k * x) in *.
    rewrite (overlap_of_bounds _ _ _ _ _ _
               (least_map_increasing f _ _ Hf Hlo1) (greatest_map_increasing f _ _ Hf Hhi1)
               (least_map_increasing f _ _ Hf Hlo2) (greatest_map_increasing f _ _ Hf Hhi2)).
    unfold f.
    rewrite (Rabs_right k) by lra. apply f_equal. now apply overlap_scaled_value.
  - assert (Hf : forall u w : R, u <= w -> k * w <= k * u).
    { intros u w Huw. replace (k * w) with (- (- k * w)) by ring.
      replace (k * u) with (- (- k * u)) by ring.
      apply Ropp_le_contravar, Rmult_le_compat_l; lra. }
    set (f := fun x : R => k * x) in *.
    rewrite (overlap_of_bounds _ _ _ _ _ _
               (least_map_decreasing f _ _ Hf Hhi1) (greatest_map_decreasing f _ _ Hf Hlo1)
               (least_map_decreasing f _ _ Hf Hhi2) (greatest_map_decreasing f _ _ Hf Hlo2)).
    unfold f.
    rewrite (Rabs_left k) by lra. apply f_equal.
    rewrite <- (overlap_scaled_value (- k)) by lra.
    apply f_equal. minmax_cases; lra.
Qed.

Lemma overlap_scales_witness :
  determine_overlap_between_aligned_segments
      (map (fun x => -3 * x) [0; 2]) (map (fun x => -3 * x) [1; 3])
    = Returned (Rabs (-3) * 1).
Proof.
  apply (overlap_scales (-3) 1 [0; 2] [1; 3]).
  rewrite overlap_of_pairs. f_equal. minmax_numerals; lra.
Defined.

(** ** The extent of the projections *)

Lemma min_max_projections_of_bounds (points : ndarray) (axis : point) (lo hi : R) :
  least lo (dot points axis) -> greatest hi (dot points axis) ->
  get_min_max_projections points axis = Returned (lo, hi).
Proof.
  intros Hlo Hhi.
  cbv [get_min_max_projections get_projected_distance_of_2d_points_onto_axis
       mbind mret result_bind result_ret].
  rewrite (min_seq_least _ _ Hlo), (max_seq_greatest _ _ Hhi). reflexivity.
Qed.

Lemma dot_nonempty (points : ndarray) (axis : point) : points <> [] -> dot points axis <> [].
Proof. destruct points; [intros E; now elim E|discriminate]. Qed.

Lemma projections_extremes (points : ndarray) (axis : point) :
  points <> [] ->
  exists lo hi : R, least lo (dot points axis) /\ greatest hi (dot points axis).
Proof.
  intros Hne. pose proof (dot_nonempty _ axis Hne) as Hd.
  destruct (min_seq_nonempty _ Hd) as (lo & _ & Hlo).
  destruct (max_seq_nonempty _ Hd) as (hi & _ & Hhi).
  now exists lo, hi.
Qed.

(** X15: Without points the extent of the projections raises [ValueError].  With
    at least one point it returns a pair (lo, hi) with lo <= hi; both are the
    projection of one of the points, and the projection of every point lies
    between them. *)
Theorem min_max_projections_enclose (points : ndarray) (axis : point)
    (Hpoints : points <> []) :
  get_min_max_projections [] axis = Raised ValueError
  /\ exists lo hi : R,
       get_min_max_projections points axis = Returned (lo, hi)
       /\ lo <= hi
       /\ (exists p : point, In p points /\ lo = p.1 * axis.1 + p.2 * axis.2)
       /\ (exists q : point, In q points /\ hi = q.1 * axis.1 + q.2 * axis.2)
       /\ forall p : point, In p points -> lo <= p.1 * axis.1 + p.2 * axis.2 <= hi.
Proof.
  split; [reflexivity|].
  destruct (projections_extremes _ axis Hpoints) as (lo & hi & Hlo & Hhi).
  exists lo, hi. split; [now apply min_max_projections_of_bounds|].
  destruct Hlo as [Hlo_in Hlo_le], Hhi as [Hhi_in Hhi_le].
  split; [now apply Hlo_le|]. unfold dot in *. split; [|split].
  - apply in_map_iff in Hlo_in as (p & E & Hp). exists p. now split.
  - apply in_map_iff in Hhi_in as (q & E & Hq). exists q. now split.
  - intros p Hp. split.
    + apply Hlo_le. apply in_map_iff. now exists p.
    + apply Hhi_le. apply in_map_iff. now exists p.
Qed.

Lemma min_max_projections_enclose_witness :
  get_min_max_projections [] (1, -1) = Raised ValueError
  /\ exists lo hi : R,
       get_min_max_projections [(4, 1); (6, 2); (-1, 5)] (1, -1) = Returned (lo, hi)
       /\ lo <= hi
       /\ (exists p : point, In p [(4, 1); (6, 2); (-1, 5)] /\ lo = p.1 * 1 + p.2 * -1)
       /\ (exists q : point, In q [(4, 1); (6, 2); (-1, 5)] /\ hi = q.1 * 1 + q.2 * -1)
       /\ forall p : point,
            In p [(4, 1); (6, 2); (-1, 5)] -> lo <= p.1 * 1 + p.2 * -1 <= hi.
Proof.
  apply (min_max_projections_enclose [(4, 1); (6, 2); (-1, 5)] (1, -1)). discriminate.
Defined.

(** X16: Projecting onto the opposite axis mirrors the extent: if the extent on
    an axis is (lo, hi), the extent on the negated axis is (-hi, -lo). *)
Theorem min_max_projections_on_opposite_axis (points : ndarray) (axis : point) (lo hi : R)
    (Hext : get_min_max_projections points axis = Returned (lo, hi)) :
  get_min_max_projections points (- axis.1, - axis.2) = Returned (- hi, - lo).
Proof.
  destruct points as [|p0 rest]; [discriminate|].
  destruct (projections_extremes (p0 :: rest) axis) as (lo' & hi' & Hlo & Hhi);
    [discriminate|].
  rewrite (min_max_projections_of_bounds _ _ _ _ Hlo Hhi) in Hext.
  injection Hext as <- <-.
  assert (Hdot : dot (p0 :: rest) (- axis.1, - axis.2)
                 = map (fun x => - x) (dot (p0 :: rest) axis)).
  { unfold dot. rewrite map_map. apply map_ext. intros p. cbn [fst snd]. ring. }
  assert (Hf : forall u v : R, u <= v -> - v <= - u) by (intros; lra).
  apply min_max_projections_of_bounds; rewrite Hdot.
  - exact (least_map_decreasing (fun x => - x) _ _ Hf Hhi).
  - exact (greatest_map_decreasing (fun x => - x) _ _ Hf Hlo).
Qed.

Lemma min_max_projections_on_opposite_axis_witness :
  get_min_max_projections [(4, 1); (-1, 5)] (- (1, 0).1, - (1, 0).2) = Returned (- 4, - -1).
Proof.
  apply (min_max_projections_on_opposite_axis [(4, 1); (-1, 5)] (1, 0) (-1) 4).
  apply min_max_projections_of_bounds.
  - split; [right; left; cbn [fst snd]; lra|].
    intros x [<-|[<-|[]]]; cbn [fst snd]; lra.
  - split; [left; cbn [fst snd]; lra|].
    intros x [<-|[<-|[]]]; cbn [fst snd]; lra.
Defined.

(** X17: Moving every point by the same vector moves both ends of the extent by
    the projection of that vector. *)
Theorem min_max_projections_of_moved_points
    (points : ndarray) (axis t : point) (lo hi : R)
    (Hext : get_min_max_projections points axis = Returned (lo, hi)) :
  get_min_max_projections (map (fun p => vec_add p t) points) axis
    = Returned (lo + (t.1 * axis.1 + t.2 * axis.2), hi + (t.1 * axis.1 + t.2 * axis.2)).
Proof.
  destruct points as [|p0 rest]; [discriminate|].
  destruct (projections_extremes (p0 :: rest) axis) as (lo' & hi' & Hlo & Hhi);
    [discriminate|].
  rewrite (min_max_projections_of_bounds _ _ _ _ Hlo Hhi) in Hext.
  injection Hext as <- <-.
  set (s := t.1 * axis.1 + t.2 * axis.2).
  assert (Hdot : dot (map (fun p => vec_add p t) (p0 :: rest)) axis
                 = map (fun x => x + s) (dot (p0 :: rest) axis)).
  { unfold dot. rewrite !map_map. apply map_ext. intros p.
    unfold vec_add, s. cbn [fst snd]. ring. }
  assert (Hf : forall u v : R, u <= v -> u + s <= v + s) by (intros; lra).
  apply min_max_projections_of_bounds; rewrite Hdot.
  - exact (least_map_increasing (fun x => x + s) _ _ Hf Hlo).
  - exact (greatest_map_increasing (fun x => x + s) _ _ Hf Hhi).
Qed.

Lemma min_max_projections_of_moved_points_witness :
  get_min_max_projections (map (fun p => vec_add p (10, 20)) [(4, 1); (-1, 5)]) (1, 0)
    = Returned (-1 + ((10, 20).1 * (1, 0).1 + (10, 20).2 * (1, 0).2),
                4 + ((10, 20).1 * (1, 0).1 + (10, 20).2 * (1, 0).2)).
Proof.
  apply (min_max_projections_of_moved_points [(4, 1); (-1, 5)] (1, 0) (10, 20) (-1) 4).
  apply min_max_projections_of_bounds.
  - split; [right; left; cbn [fst snd]; lra|].
    intros x [<-|[<-|[]]]; cbn [fst snd]; lra.
  - split; [left; cbn [fst snd]; lra|].
    intros x [<-|[<-|[]]]; cbn [fst snd]; lra.
Defined.

(** ** Normalisation of a vector that is not zero *)

Lemma sum_squares_nonneg (vec : list R) :
  0 <= fold_right Rplus 0 (map (fun x => x * x) vec).
Proof.
  induction vec as [|x vec IH]; cbn [map fold_right]; [lra|].
  pose proof (Rle_0_sqr x) as Hx. unfold Rsqr in Hx. lra.
Qed.

Lemma sum_squares_scaled (k : R) (vec : list R) :
  fold_right Rplus 0 (map (fun x => x * x) (map (fun x => k * x) vec))
    = k * k * fold_right Rplus 0 (map (fun x => x * x) vec).
Proof.
  induction vec as [|x vec IH]; cbn [map fold_right]; [ring|]. rewrite IH. ring.
Qed.

Lemma sum_squares_zero (vec : list R) :
  fold_right Rplus 0 (map (fun x => x * x) vec) = 0 -> forall x : R, In x vec -> x = 0.
Proof.
  induction vec as [|y vec IH]; cbn [map fold_right]; intros Hsum x Hx; [destruct Hx|].
  pose proof (sum_squares_nonneg vec) as Hrest.
  pose proof (Rle_0_sqr y) as Hy. unfold Rsqr in Hy.
  destruct Hx as [<-|Hx].
  - apply Rsqr_0_uniq. unfold Rsqr. lra.
  - apply IH; [lra|exact Hx].
Qed.

Lemma norm_nonneg (vec : list R) : 0 <= norm vec.
Proof. apply sqrt_pos. Qed.

Lemma norm_square (vec : list R) :
  norm vec * norm vec = fold_right Rplus 0 (map (fun x => x * x) vec).
Proof. apply sqrt_sqrt, sum_squares_nonneg. Qed.

Lemma norm_zero_components (vec : list R) :
  norm vec = 0 -> forall x : R, In x vec -> x = 0.
Proof.
  intros Hn. apply sum_squares_zero. rewrite <- norm_square, Hn. ring.
Qed.

Lemma norm_scaled (k : R) (vec : list R) :
  norm (map (fun x => k * x) vec) = Rabs k * norm vec.
Proof.
  unfold norm. rewrite sum_squares_scaled.
  rewrite sqrt_mult_alt by (pose proof (Rle_0_sqr k) as Hk; unfold Rsqr in Hk; exact Hk).
  f_equal. change (k * k) with (Rsqr k). apply sqrt_Rsqr_abs.
Qed.

Lemma true_divide_nonzero (x n : R) : n <> 0 -> true_divide x n = Finite (x / n).
Proof. intros Hn. unfold true_divide. destruct (Req_dec_T n 0); [contradiction|reflexivity]. Qed.

(** X18: A vector whose norm is not zero is normalised to the vector of the
    finite quotients [x / norm], and the norm of this vector is 1. *)
Theorem normalise_vector_has_unit_norm (vec : list R) (Hnorm : norm vec <> 0) :
  exists unit : list R,
    normalise_vector vec = Returned (map Finite unit)
    /\ unit = map (fun x => x / norm vec) vec
    /\ norm unit = 1.
Proof.
  eexists. split; [|split; [reflexivity|]].
  - unfold normalise_vector, mret, result_ret. f_equal. rewrite map_map.
    apply map_ext. intros x. now apply true_divide_nonzero.
  - pose proof (norm_nonneg vec) as Hpos.
    rewrite (map_ext (fun x => x / norm vec) (fun x => / norm vec * x))
      by (intros x; unfold Rdiv; ring).
    rewrite norm_scaled, Rabs_right.
    + now apply Rinv_l.
    + apply Rle_ge. left. apply Rinv_0_lt_compat. lra.
Qed.

Lemma normalise_vector_has_unit_norm_witness :
  exists unit : list R,
    normalise_vector [3; 4] = Returned (map Finite unit)
    /\ unit = map (fun x => x / norm [3; 4]) [3; 4]
    /\ norm unit = 1.
Proof.
  apply (normalise_vector_has_unit_norm [3; 4]).
  intros Hn. pose proof (norm_zero_components _ Hn 3 (or_introl eq_refl)). lra.
Defined.


(** X20: Normalisation does not depend on the length of the vector: a vector
    and its multiple by a positive factor are normalised to the same
    result. *)
Theorem normalise_vector_ignores_positive_scale (k : R) (vec : list R) (Hk : 0 < k) :
  normalise_vector (map (fun x => k * x) vec) = normalise_vector vec.
Proof.
  unfold normalise_vector, mret, result_ret. f_equal.
  rewrite norm_scaled, Rabs_right by lra. rewrite map_map.
  apply map_ext. intros x. unfold true_divide.
  destruct (Req_dec_T (k * norm vec) 0) as [Hz|Hnz], (Req_dec_T (norm vec) 0) as [Hz'|Hnz'].
  - destruct (Req_dec_T (k * x) 0) as [Hx|Hx], (Req_dec_T x 0) as [Hx'|Hx']; try reflexivity.
    + exfalso. apply Hx'. apply Rmult_integral in Hx as [Hx|Hx]; lra.
    + exfalso. apply Hx. rewrite Hx'. ring.
    + destruct (Rlt_dec 0 (k * x)) as [Hp|Hp], (Rlt_dec 0 x) as [Hp'|Hp']; try reflexivity.
      * exfalso. apply Hp'. apply Rmult_lt_reg_l with k; [exact Hk|]. now rewrite Rmult_0_r.
      * exfalso. apply Hp. now apply Rmult_lt_0_compat.
  - exfalso. apply Rmult_integral in Hz as [Hz|Hz]; lra.
  - exfalso. apply Hnz. rewrite Hz'. ring.
  - f_equal. field. split; lra.
Qed.

Lemma normalise_vector_ignores_positive_scale_witness :
  normalise_vector (map (fun x => 2 * x) [3; 4]) = normalise_vector [3; 4].
Proof.
  apply (normalise_vector_ignores_positive_scale 2 [3; 4]). lra.
Defined.

(** ** The overlap report of [checker.py] *)

Lemma isclose_0 (a : R) : isclose a 0 = true <-> Rabs a <= 1e-8.
Proof.
  unfold isclose, atol, rtol. rewrite Rabs_R0, Rminus_0_r.
  destruct (Rle_dec (Rabs a) (1e-8 + 1e-5 * 0)) as [H|H]; split; intros H'.
  - lra.
  - reflexivity.
  - discriminate.
  - exfalso. apply H. lra.
Qed.

(** What a fold that only ever adds to a set of names has collected. *)
Lemma foldl_collects {A : Type} (f : gset string -> A -> gset string)
    (P : A -> string -> Prop) :
  (forall (acc : gset string) (a : A) (s : string), s ∈ f acc a <-> s ∈ acc \/ P a s) ->
  forall (l : list A) (acc : gset string) (s : string),
    s ∈ foldl f acc l <-> s ∈ acc \/ exists a : A, a ∈ l /\ P a s.
Proof.
  intros Hf l. induction l as [|a l IH]; intros acc s; cbn [foldl].
  - split; [now left|]. intros [H|(a & Ha & _)]; [exact H|]. now apply elem_of_nil in Ha.
  - rewrite IH, Hf. split.
    + intros [[H|H]|(b & Hb & HP)].
      * now left.
      * right. exists a. split; [apply elem_of_cons; now left|exact H].
      * right. exists b. split; [apply elem_of_cons; now right|exact HP].
    + intros [H|(b & Hb & HP)]; [now left; left|].
      apply elem_of_cons in Hb as [->|Hb]; [now left; right|].
      right. now exists b.
Qed.

Section CheckerProperties.

Variable RectangularCuboid : Type.
Variable name : RectangularCuboid -> string.
Variable apply_separating_axis_theorem : RectangularCuboid -> RectangularCuboid -> point.

Lemma check_pair_collects (item1 item2 : RectangularCuboid) (acc : gset string) (s : string) :
  s ∈ check_pair RectangularCuboid name apply_separating_axis_theorem item1 item2 acc
  <-> s ∈ acc
      \/ (~ (Rabs (apply_separating_axis_theorem item1 item2).1 <= 1e-8
             /\ Rabs (apply_separating_axis_theorem item1 item2).2 <= 1e-8)
          /\ (s = name item1 \/ s = name item2)).
Proof.
  unfold check_pair. cbv zeta.
  set (mtv := apply_separating_axis_theorem item1 item2).
  pose proof (isclose_0 mtv.1) as H1. pose proof (isclose_0 mtv.2) as H2.
  destruct (isclose mtv.1 0), (isclose mtv.2 0); cbn [negb andb].
  - split; [now left|]. intros [H|[Hn _]]; [exact H|].
    exfalso. apply Hn. split; [now apply H1|now apply H2].
  - rewrite !elem_of_union, !elem_of_singleton. split.
    + intros [->|[->|H]]; [right|right|now left];
        (split; [intros [_ Hc]; apply H2 in Hc; discriminate|auto]).
    + intros [H|[_ [->| ->]]]; auto.
  - rewrite !elem_of_union, !elem_of_singleton. split.
    + intros [->|[->|H]]; [right|right|now left];
        (split; [intros [Hc _]; apply H1 in Hc; discriminate|auto]).
    + intros [H|[_ [->| ->]]]; auto.
  - rewrite !elem_of_union, !elem_of_singleton. split.
    + intros [->|[->|H]]; [right|right|now left];
        (split; [intros [Hc _]; apply H1 in Hc; discriminate|auto]).
    + intros [H|[_ [->| ->]]]; auto.
Qed.

Lemma check_overlaps_collects (cuboids : list RectangularCuboid) (s : string) :
  s ∈ check_overlaps_between_cuboids RectangularCuboid name apply_separating_axis_theorem
        cuboids
  <-> exists (i j : nat) (item1 item2 : RectangularCuboid),
        (i < j)%nat
        /\ cuboids !! i = Some item1
        /\ cuboids !! j = Some item2
        /\ ~ (Rabs (apply_separating_axis_theorem item1 item2).1 <= 1e-8
              /\ Rabs (apply_separating_axis_theorem item1 item2).2 <= 1e-8)
        /\ (s = name item1 \/ s = name item2).
Proof.
  unfold check_overlaps_between_cuboids. cbv zeta.
  set (n := length cuboids).
  set (hit := fun (i j : nat) (s : string) =>
                exists item1 item2 : RectangularCuboid,
                  cuboids !! i = Some item1 /\ cuboids !! j = Some item2
                  /\ ~ (Rabs (apply_separating_axis_theorem item1 item2).1 <= 1e-8
                        /\ Rabs (apply_separating_axis_theorem item1 item2).2 <= 1e-8)
                  /\ (s = name item1 \/ s = name item2)).
  rewrite (foldl_collects _
             (fun i s => exists j : nat, j ∈ seq (i + 1) (n - (i + 1)) /\ hit i j s)).
  - split.
    + intros [H|(i & Hi & j & Hj & item1 & item2 & H1 & H2 & Hd & Hs)];
        [now apply elem_of_empty in H|].
      apply elem_of_seq in Hj. exists i, j, item1, item2.
      split; [lia|]. now repeat split.
    + intros (i & j & item1 & item2 & Hij & H1 & H2 & Hd & Hs). right.
      pose proof (lookup_lt_Some _ _ _ H1) as Hi. pose proof (lookup_lt_Some _ _ _ H2) as Hj.
      exists i. split; [apply elem_of_seq; lia|].
      exists j. split; [apply elem_of_seq; unfold n; lia|].
      exists item1, item2. now repeat split.
  - intros acc i s'. apply foldl_collects. clear acc. intros acc j s''.
    unfold hit. destruct (cuboids !! i) as [item1|] eqn:E1.
    + destruct (cuboids !! j) as [item2|] eqn:E2.
      * rewrite check_pair_collects. split.
        -- intros [H|[Hd Hs]]; [now left|]. right. exists item1, item2. now repeat split.
        -- intros [H|(a & b & Ha & Hb & Hd & Hs)]; [now left|].
           injection Ha as <-. injection Hb as <-. now right.
      * split; [now left|]. intros [H|(a & b & _ & Hb & _)]; [exact H|discriminate].
    + split; [now left|]. intros [H|(a & b & Ha & _)]; [exact H|discriminate].
Qed.

(** X21: A name is reported exactly when it is the name of one of two cuboids
    [cuboids[i]] and [cuboids[j]], [i < j], whose minimum translation
    vector, computed with the earlier cuboid first, has a component farther
    than 1e-8 from zero. *)
Theorem reported_iff_in_an_overlapping_pair
    (cuboids : list RectangularCuboid) (s : string) :
  s ∈ check_overlaps_between_cuboids RectangularCuboid name apply_separating_axis_theorem
        cuboids
  <-> exists (i j : nat) (item1 item2 : RectangularCuboid),
        (i < j)%nat
        /\ cuboids !! i = Some item1
        /\ cuboids !! j = Some item2
        /\ ~ (Rabs (apply_separating_axis_theorem item1 item2).1 <= 1e-8
              /\ Rabs (apply_separating_axis_theorem item1 item2).2 <= 1e-8)
        /\ (s = name item1 \/ s = name item2).
Proof. apply check_overlaps_collects. Qed.

(** X22: Only names of the cuboids given are reported, and extending the list
    of cuboids at its end never withdraws a reported name. *)
Theorem report_is_sound_and_monotone (cuboids more : list RectangularCuboid) :
  check_overlaps_between_cuboids RectangularCuboid name apply_separating_axis_theorem cuboids
    ⊆ list_to_set (map name cuboids)
  /\ check_overlaps_between_cuboids RectangularCuboid name apply_separating_axis_theorem
       cuboids
     ⊆ check_overlaps_between_cuboids RectangularCuboid name apply_separating_axis_theorem
         (cuboids ++ more).
Proof.
  split; intros s Hs; apply check_overlaps_collects in Hs
    as (i & j & item1 & item2 & Hij & H1 & H2 & Hd & Hname).
  - apply elem_of_list_to_set, list_elem_of_In, in_map_iff.
    destruct Hname as [->| ->].
    + exists item1. split; [reflexivity|].
      apply list_elem_of_In, list_elem_of_lookup. now exists i.
    + exists item2. split; [reflexivity|].
      apply list_elem_of_In, list_elem_of_lookup. now exists j.
  - apply check_overlaps_collects. exists i, j, item1, item2.
    split; [exact Hij|]. split; [now apply lookup_app_l_Some|].
    split; [now apply lookup_app_l_Some|]. now split.
Qed.


End CheckerProperties.


(** ** The cuboids created from a configuration *)

Lemma for_each_app {A S : Type} (body : S -> A -> config_result S) (l1 l2 : list A) (s : S) :
  for_each body (l1 ++ l2) s = (s' ← for_each body l1 s; for_each body l2 s').
Proof.
  revert s. induction l1 as [|a l1 IH]; intros s; cbn [for_each app]; [reflexivity|].
  destruct (body s a) as [s'|e]; cbn [mbind config_result_bind]; [apply IH|reflexivity].
Qed.

(** The inner loop appends, in order, the cuboid created for each index. *)
Lemma inner_loop_loaded (items : item_type) (l : list nat)
    (acc r : list cuboid_arguments) :
  for_each (fun rec_cuboids j =>
              rec_cuboid ← create_rectangular_cuboid items j;
              mret (rec_cuboids ++ [rec_cuboid])) l acc = Loaded r
  <-> exists cs : list cuboid_arguments,
        r = acc ++ cs
        /\ Forall2 (fun j c => create_rectangular_cuboid items j = Loaded c) l cs.
Proof.
  revert acc. induction l as [|j l IH]; intros acc; cbn [for_each].
  - split.
    + intros E. injection E as <-. exists []. split; [now rewrite app_nil_r|constructor].
    + intros (cs & -> & Hcs). inversion Hcs. now rewrite app_nil_r.
  - destruct (create_rectangular_cuboid items j) as [c|e] eqn:Ec;
      cbn [mbind config_result_bind].
    + change (mret (acc ++ [c])) with (Loaded (acc ++ [c])).
      cbn [mbind config_result_bind]. rewrite IH. split.
      * intros (cs & -> & Hcs). exists (c :: cs). split; [now rewrite <- app_assoc|].
        now constructor.
      * intros (cs & -> & Hcs). inversion Hcs as [|? c' ? cs' Hc Hcs']; subst.
        rewrite Ec in Hc. injection Hc as <-.
        exists cs'. split; [now rewrite <- app_assoc|exact Hcs'].
    + split; [discriminate|]. intros (cs & _ & Hcs).
      inversion Hcs as [|? c' ? cs' Hc Hcs']; subst. rewrite Ec in Hc. discriminate.
Qed.

Lemma created_unique (items : item_type) (l : list nat) (cs cs' : list cuboid_arguments) :
  Forall2 (fun j c => create_rectangular_cuboid items j = Loaded c) l cs ->
  Forall2 (fun j c => create_rectangular_cuboid items j = Loaded c) l cs' ->
  cs = cs'.
Proof.
  intros H. revert cs'. induction H as [|j c l cs Hc _ IH]; intros cs' H'.
  - now inversion H'.
  - inversion H' as [|? c' ? cs'' Hc' Hcs'']; subst.
    rewrite Hc in Hc'. injection Hc' as <-. f_equal. now apply IH.
Qed.

Lemma create_list_loaded_from (item_types : list item_type)
    (acc r : list cuboid_arguments) :
  for_each
    (fun rec_cuboids items =>
       let num_items := length (positions items) in
       for_each
         (fun rec_cuboids j =>
            rec_cuboid ← create_rectangular_cuboid items j;
            mret (rec_cuboids ++ [rec_cuboid]))
         (seq 0 num_items) rec_cuboids)
    item_types acc = Loaded r
  <-> exists css : list (list cuboid_arguments),
        r = acc ++ concat css
        /\ Forall2 (fun items cs =>
                      Forall2 (fun j c => create_rectangular_cuboid items j = Loaded c)
                        (seq 0 (length (positions items))) cs)
             item_types css.
Proof.
  revert acc. induction item_types as [|items item_types IH]; intros acc; cbn [for_each].
  - split.
    + intros E. injection E as <-. exists []. split; [now rewrite app_nil_r|constructor].
    + intros (css & -> & Hcss). inversion Hcss. cbn [concat]. now rewrite app_nil_r.
  - cbv zeta.
    destruct (for_each _ (seq 0 (length (positions items))) acc) as [acc'|e] eqn:Einner;
      cbn [mbind config_result_bind].
    + apply inner_loop_loaded in Einner as (cs & -> & Hcs). rewrite IH. split.
      * intros (css & -> & Hcss). exists (cs :: css). cbn [concat].
        split; [now rewrite <- app_assoc|]. now constructor.
      * intros (css & -> & Hcss). inversion Hcss as [|? cs' ? css' Hcs' Hcss']; subst.
        rewrite (created_unique _ _ _ _ Hcs' Hcs).
        exists css'. cbn [concat]. split; [now rewrite <- app_assoc|exact Hcss'].
    + split; [discriminate|]. intros (css & -> & Hcss).
      inversion Hcss as [|? cs' ? css' Hcs' Hcss']; subst.
      assert (Ecs : for_each
                      (fun rec_cuboids j =>
                         rec_cuboid ← create_rectangular_cuboid items j;
                         mret (rec_cuboids ++ [rec_cuboid]))
                      (seq 0 (length (positions items))) acc = Loaded (acc ++ cs'))
        by (apply inner_loop_loaded; now exists cs').
      rewrite Ecs in Einner. discriminate.
Qed.

Lemma create_list_loaded (item_types : list item_type) (r : list cuboid_arguments) :
  _create_rectangular_cuboid_list item_types = Loaded r
  <-> exists css : list (list cuboid_arguments),
        r = concat css
        /\ Forall2 (fun items cs =>
                      Forall2 (fun j c => create_rectangular_cuboid items j = Loaded c)
                        (seq 0 (length (positions items))) cs)
             item_types css.
Proof. unfold _create_rectangular_cuboid_list. apply create_list_loaded_from. Qed.

Lemma index_loaded {A : Type} (xs : list A) (j : nat) (x : A) :
  index xs j = Loaded x <-> xs !! j = Some x.
Proof.
  unfold index. destruct (xs !! j) as [y|]; split; intros E; try discriminate.
  - now injection E as ->.
  - now injection E as ->.
Qed.

(** The fields of a cuboid that was created for the index [j] of an item
    type. *)
Lemma created_fields (items : item_type) (j : nat) (c : cuboid_arguments) :
  create_rectangular_cuboid items j = Loaded c ->
  name c = _set_item_name_from (item_name items) j
  /\ (exists p : Vector3,
         positions items !! j = Some p
         /\ lower_base_centroid c = (v_x p, v_z p, v_y p))
  /\ match rotations items with
     | Some rs => rs !! j = Some (rotation c)
     | None => rotation c = 0
     end
  /\ (if is_substring "Agent" (name c)
      then dimensions c = (1, 1, 1) /\ colour c = Some {| c_r := 0; c_g := 0; c_b := 0 |}
      else exists (ss : list Vector3) (s : Vector3),
             sizes items = Some ss /\ ss !! j = Some s
             /\ dimensions c = (v_x s, v_z s, v_y s)
             /\ match colors items with
                | Some cs => exists col : RGB, cs !! j = Some col /\ colour c = Some col
                | None => colour c = None
                end).
Proof.
  unfold create_rectangular_cuboid. cbv zeta.
  destruct (index (positions items) j) as [p|e] eqn:Ep; [|discriminate].
  apply index_loaded in Ep. cbn [mbind config_result_bind].
  assert (Hrot : forall rot : R,
             match rotations items with
             | Some rs => index rs j
             | None => mret 0
             end = Loaded rot ->
             match rotations items with
             | Some rs => rs !! j = Some rot
             | None => rot = 0
             end).
  { intros rot. destruct (rotations items) as [rs|].
    - apply index_loaded.
    - intros E. now injection E as <-. }
  destruct (match rotations items with Some rs => index rs j | None => mret 0 end)
    as [rot|e] eqn:Erot; [|discriminate].
  specialize (Hrot rot eq_refl). cbn [mbind config_result_bind].
  destruct (is_substring "Agent" (_set_item_name_from (item_name items) j)) eqn:Eagent.
  - cbn [mbind config_result_bind mret config_result_ret fst snd].
    intros E. injection E as <-. cbn [name lower_base_centroid rotation dimensions colour].
    rewrite Eagent. split; [reflexivity|]. split; [now exists p|]. split; [exact Hrot|].
    now split.
  - unfold key_index. destruct (sizes items) as [ss|]; [|discriminate].
    destruct (index ss j) as [s|e] eqn:Es; [|discriminate].
    apply index_loaded in Es. cbn [mbind config_result_bind].
    destruct (colors items) as [cs|].
    + destruct (index cs j) as [col|e] eqn:Ecol; [|discriminate].
      apply index_loaded in Ecol.
      cbn [mbind config_result_bind mret config_result_ret fst snd].
      intros E. injection E as <-. cbn [name lower_base_centroid rotation dimensions colour].
      rewrite Eagent. split; [reflexivity|]. split; [now exists p|]. split; [exact Hrot|].
      exists ss, s. split; [reflexivity|]. split; [exact Es|]. split; [reflexivity|].
      now exists col.
    + cbn [mbind config_result_bind mret config_result_ret fst snd].
      intros E. injection E as <-. cbn [name lower_base_centroid rotation dimensions colour].
      rewrite Eagent. split; [reflexivity|]. split; [now exists p|]. split; [exact Hrot|].
      exists ss, s. now repeat split.
Qed.

Lemma Forall2_seq_lookup {A B C : Type} (ps : list A) (cs : list B) (g : B -> C) (f : A -> C) :
  Forall2 (fun j c => exists p : A, ps !! j = Some p /\ g c = f p) (seq 0 (length ps)) cs ->
  map g cs = map f ps.
Proof.
  intros H. pose proof (Forall2_length _ _ _ H) as Hlen. rewrite length_seq in Hlen.
  change (g <$> cs = f <$> ps). apply list_eq. intros k. rewrite !list_lookup_fmap.
  destruct (decide (k < length ps)%nat) as [Hk|Hk].
  - pose proof (lookup_seq_lt 0 _ _ Hk) as Hseq. cbn in Hseq.
    destruct (Forall2_lookup_l _ _ _ _ _ H Hseq) as (c & Hc & p & Hp & Hgf).
    rewrite Hc, Hp. cbn. now rewrite Hgf.
  - rewrite (lookup_ge_None_2 cs k) by lia. rewrite (lookup_ge_None_2 ps k) by lia.
    reflexivity.
Qed.

Lemma Forall2_map_eq {A B C : Type} (l : list A) (cs : list B) (g : B -> C) (f : A -> C) :
  Forall2 (fun j c => g c = f j) l cs -> map g cs = map f l.
Proof. induction 1 as [|j c l cs Hc _ IH]; cbn [map]; [reflexivity|]. now rewrite Hc, IH. Qed.

(** X24: When the list of cuboids is returned it holds one cuboid for every
    position of every item type, in the order of the configuration: the
    names are the type name followed by a space and the index of the
    position within its type, and each centroid lists the coordinates of
    its position in the order x, z, y. *)
Theorem created_cuboids_follow_positions
    (item_types : list item_type) (cuboids : list cuboid_arguments)
    (Hloaded : _create_rectangular_cuboid_list item_types = Loaded cuboids) :
  map name cuboids
    = concat (map (fun items => map (_set_item_name_from (item_name items))
                                    (seq 0 (length (positions items)))) item_types)
  /\ map lower_base_centroid cuboids
     = map (fun p => (v_x p, v_z p, v_y p)) (concat (map positions item_types))
  /\ length cuboids = length (concat (map positions item_types)).
Proof.
  apply create_list_loaded in Hloaded as (css & -> & Hcss).
  assert (Hn : map name (concat css)
               = concat (map (fun items => map (_set_item_name_from (item_name items))
                                               (seq 0 (length (positions items)))) item_types)).
  { induction Hcss as [|items cs item_types css Hcs _ IH]; [reflexivity|].
    cbn [concat map]. rewrite map_app, IH. f_equal.
    apply Forall2_map_eq. eapply Forall2_impl; [exact Hcs|].
    intros j c Hc. now apply created_fields in Hc as (Hname & _). }
  assert (Hc : map lower_base_centroid (concat css)
               = map (fun p => (v_x p, v_z p, v_y p)) (concat (map positions item_types))).
  { clear Hn. induction Hcss as [|items cs item_types css Hcs _ IH]; [reflexivity|].
    cbn [concat map]. rewrite !map_app, IH. f_equal.
    apply Forall2_seq_lookup. eapply Forall2_impl; [exact Hcs|].
    intros j c Hc. now apply created_fields in Hc as (_ & Hp & _). }
  split; [exact Hn|]. split; [exact Hc|].
  rewrite <- (length_map lower_base_centroid), Hc. apply length_map.
Qed.

Lemma created_cuboids_follow_positions_witness :
  let walls := {| item_name := "Wall";
                  positions := [ {| v_x := 1; v_y := 2; v_z := 3 |};
                                 {| v_x := 4; v_y := 5; v_z := 6 |} ];
                  rotations := None;
                  sizes := Some [ {| v_x := 1; v_y := 1; v_z := 1 |};
                                  {| v_x := 2; v_y := 2; v_z := 2 |} ];
                  colors := None |} in
  map name [ {| lower_base_centroid := (1, 3, 2); dimensions := (1, 1, 1);
                rotation := 0; name := "Wall 0"; colour := None |};
             {| lower_base_centroid := (4, 6, 5); dimensions := (2, 2, 2);
                rotation := 0; name := "Wall 1"; colour := None |} ]
    = concat (map (fun items => map (_set_item_name_from (item_name items))
                                    (seq 0 (length (positions items)))) [walls])
  /\ map lower_base_centroid
       [ {| lower_base_centroid := (1, 3, 2); dimensions := (1, 1, 1);
            rotation := 0; name := "Wall 0"; colour := None |};
         {| lower_base_centroid := (4, 6, 5); dimensions := (2, 2, 2);
            rotation := 0; name := "Wall 1"; colour := None |} ]
     = map (fun p => (v_x p, v_z p, v_y p)) (concat (map positions [walls]))
  /\ length [ {| lower_base_centroid := (1, 3, 2); dimensions := (1, 1, 1);
                 rotation := 0; name := "Wall 0"; colour := None |};
              {| lower_base_centroid := (4, 6, 5); dimensions := (2, 2, 2);
                 rotation := 0; name := "Wall 1"; colour := None |} ]
     = length (concat (map positions [walls])).
Proof.
  intros walls.
  apply (created_cuboids_follow_positions [walls]). reflexivity.
Defined.

(** Where a created cuboid comes from. *)
Lemma created_origin (item_types : list item_type) (cuboids : list cuboid_arguments)
    (c : cuboid_arguments) :
  _create_rectangular_cuboid_list item_types = Loaded cuboids ->
  In c cuboids ->
  exists (items : item_type) (j : nat),
    In items item_types /\ create_rectangular_cuboid items j = Loaded c.
Proof.
  intros Hloaded Hin. apply create_list_loaded in Hloaded as (css & -> & Hcss).
  induction Hcss as [|items cs item_types css Hcs _ IH]; [destruct Hin|].
  cbn [concat] in Hin. apply in_app_or in Hin as [Hin|Hin].
  - clear IH. exists items.
    induction Hcs as [|j c' l cs Hc _ IH]; [destruct Hin|].
    destruct Hin as [->|Hin].
    + exists j. split; [now left|exact Hc].
    + now apply IH.
  - destruct (IH Hin) as (items' & j & Hitems & Hc). exists items', j.
    split; [now right|exact Hc].
Qed.

(** X25: Every cuboid of the returned list whose name contains "Agent" is a
    unit cube (dimensions (1, 1, 1)) of the colour (0, 0, 0); every other
    cuboid has the dimensions of the entry of "sizes" at its own index,
    listed in the order x, z, y; and the rotation of a cuboid is the entry
    of "rotations" at its index, or 0 where the item type has no
    rotations. *)
Theorem created_cuboid_fields
    (item_types : list item_type) (cuboids : list cuboid_arguments) (c : cuboid_arguments)
    (Hloaded : _create_rectangular_cuboid_list item_types = Loaded cuboids)
    (Hin : In c cuboids) :
  exists (items : item_type) (j : nat),
    In items item_types
    /\ name c = _set_item_name_from (item_name items) j
    /\ match rotations items with
       | Some rs => rs !! j = Some (rotation c)
       | None => rotation c = 0
       end
    /\ (if is_substring "Agent" (name c)
        then dimensions c = (1, 1, 1)
             /\ colour c = Some {| c_r := 0; c_g := 0; c_b := 0 |}
        else exists (ss : list Vector3) (s : Vector3),
               sizes items = Some ss /\ ss !! j = Some s
               /\ dimensions c = (v_x s, v_z s, v_y s)
               /\ match colors items with
                  | Some cs => exists col : RGB, cs !! j = Some col /\ colour c = Some col
                  | None => colour c = None
                  end).
Proof.
  destruct (created_origin _ _ _ Hloaded Hin) as (items & j & Hitems & Hc).
  apply created_fields in Hc as (Hname & _ & Hrot & Hsize).
  exists items, j. now repeat split.
Qed.

Lemma created_cuboid_fields_witness :
  let agent := {| item_name := "Agent";
                  positions := [ {| v_x := 1; v_y := 2; v_z := 3 |} ];
                  rotations := Some [90];
                  sizes := None;
                  colors := None |} in
  let c := {| lower_base_centroid := (1, 3, 2); dimensions := (1, 1, 1);
              rotation := 90; name := "Agent 0";
              colour := Some {| c_r := 0; c_g := 0; c_b := 0 |} |} in
  exists (items : item_type) (j : nat),
    In items [agent]
    /\ name c = _set_item_name_from (item_name items) j
    /\ match rotations items with
       | Some rs => rs !! j = Some (rotation c)
       | None => rotation c = 0
       end
    /\ (if is_substring "Agent" (name c)
        then dimensions c = (1, 1, 1)
             /\ colour c = Some {| c_r := 0; c_g := 0; c_b := 0 |}
        else exists (ss : list Vector3) (s : Vector3),
               sizes items = Some ss /\ ss !! j = Some s
               /\ dimensions c = (v_x s, v_z s, v_y s)
               /\ match colors items with
                  | Some cs => exists col : RGB, cs !! j = Some col /\ colour c = Some col
                  | None => colour c = None
                  end).
Proof.
  intros agent c.
  apply (created_cuboid_fields [agent] [c] c); [reflexivity|left; reflexivity].
Defined.

(** X26: Within an item type, different indices give different names. *)
Theorem item_names_differ (type_name : string) (i j : nat)
    (Hsame : _set_item_name_from type_name i = _set_item_name_from type_name j) :
  i = j.
Proof.
  unfold _set_item_name_from in Hsame.
  apply (inj (String.app type_name)) in Hsame.
  apply (inj (String.app " ")) in Hsame.
  now apply (inj pretty) in Hsame.
Qed.

Lemma item_names_differ_witness : 12%nat = 12%nat.
Proof.
  apply (item_names_differ "Wall" 12 12). reflexivity.
Defined.

Lemma prefix_app (needle s rest : string) :
  String.prefix needle s = true -> String.prefix needle (s +:+ rest) = true.
Proof.
  revert needle. induction s as [|b s IH]; intros [|a needle].
  - intros _. change ("" +:+ rest) with rest. now destruct rest.
  - intros H. discriminate H.
  - reflexivity.
  - change (String b s +:+ rest) with (String b (s +:+ rest)). cbn [String.prefix].
    destruct (Ascii.ascii_dec a b); [apply IH|intros H; discriminate H].
Qed.

Lemma is_substring_app (needle s rest : string) :
  is_substring needle s = true -> is_substring needle (s +:+ rest) = true.
Proof.
  induction s as [|b s IH].
  - cbn [is_substring]. destruct needle as [|a needle]; [|intros H; discriminate H].
    intros _. change ("" +:+ rest) with rest. now destruct rest.
  - change (String b s +:+ rest) with (String b (s +:+ rest)). cbn [is_substring].
    destruct (String.prefix needle (String b s)) eqn:E.
    + intros _. pose proof (prefix_app _ _ rest E) as E'.
      change (String b s +:+ rest) with (String b (s +:+ rest)) in E'.
      now rewrite E'.
    + intros H. rewrite (IH H).
      now destruct (String.prefix needle (String b (s +:+ rest))).
Qed.

Lemma Forall2_exists {A B : Type} (R : A -> B -> Prop) (l : list A) :
  (forall a : A, In a l -> exists b : B, R a b) -> exists bs : list B, Forall2 R l bs.
Proof.
  induction l as [|a l IH]; intros H; [exists []; constructor|].
  destruct (H a (or_introl eq_refl)) as [b Hb].
  destruct IH as [bs Hbs]; [intros a' Ha'; apply H; now right|].
  exists (b :: bs). now constructor.
Qed.

(** X27: An item type whose name contains "Agent" and that has no rotations is
    created whatever its "sizes" and "colors" are, and also without them:
    one unit cube of the colour (0, 0, 0) and the rotation 0 for each of
    its positions. *)
Theorem agent_needs_no_sizes (items : item_type)
    (Hagent : is_substring "Agent" (item_name items) = true)
    (Hrot : rotations items = None) :
  exists cuboids : list cuboid_arguments,
    _create_rectangular_cuboid_list [items] = Loaded cuboids
    /\ length cuboids = length (positions items)
    /\ Forall (fun c => dimensions c = (1, 1, 1)
                        /\ colour c = Some {| c_r := 0; c_g := 0; c_b := 0 |}
                        /\ rotation c = 0) cuboids.
Proof.
  assert (Hname : forall j : nat,
             is_substring "Agent" (_set_item_name_from (item_name items) j) = true).
  { intros j. unfold _set_item_name_from. now apply is_substring_app. }
  assert (Hcreate : forall j : nat, In j (seq 0 (length (positions items))) ->
             exists c : cuboid_arguments, create_rectangular_cuboid items j = Loaded c).
  { intros j Hj. apply in_seq in Hj.
    destruct (lookup_lt_is_Some_2 (positions items) j) as [p Hp]; [lia|].
    unfold create_rectangular_cuboid. cbv zeta.
    rewrite (proj2 (index_loaded _ _ _) Hp), Hrot, Hname.
    eexists. reflexivity. }
  destruct (Forall2_exists _ _ Hcreate) as [cs Hcs].
  exists cs. split; [|split].
  - apply create_list_loaded. exists [cs]. cbn [concat]. rewrite app_nil_r.
    split; [reflexivity|]. constructor; [exact Hcs|constructor].
  - rewrite <- (Forall2_length _ _ _ Hcs). apply length_seq.
  - clear Hcreate. induction Hcs as [|j c l cs Hc _ IH]; constructor; [|exact IH].
    apply created_fields in Hc as (Hn & _ & Hr & Hs).
    rewrite Hrot in Hr. rewrite Hn, Hname in Hs. destruct Hs as [Hd Hcol]. now repeat split.
Qed.

Lemma agent_needs_no_sizes_witness :
  let agent := {| item_name := "Agent";
                  positions := [ {| v_x := 1; v_y := 2; v_z := 3 |} ];
                  rotations := None;
                  sizes := None;
                  colors := None |} in
  exists cuboids : list cuboid_arguments,
    _create_rectangular_cuboid_list [agent] = Loaded cuboids
    /\ length cuboids = length (positions agent)
    /\ Forall (fun c => dimensions c = (1, 1, 1)
                        /\ colour c = Some {| c_r := 0; c_g := 0; c_b := 0 |}
                        /\ rotation c = 0) cuboids.
Proof.
  intros agent. apply (agent_needs_no_sizes agent); reflexivity.
Defined.

(** X28: An item type with at least one position, without rotations and without
    "sizes", whose first name does not contain "Agent", makes the creation
    raise [KeyError] when it comes first, whatever follows it in the
    configuration. *)
Theorem missing_sizes_raise_key_error
    (items : item_type) (rest : list item_type) (p : Vector3) (ps : list Vector3)
    (Hpositions : positions items = p :: ps)
    (Hrot : rotations items = None)
    (Hname : is_substring "Agent" (_set_item_name_from (item_name items) 0) = false)
    (Hsizes : sizes items = None) :
  _create_rectangular_cuboid_list (items :: rest) = Failed KeyError.
Proof.
  unfold _create_rectangular_cuboid_list. cbn [for_each]. cbv zeta.
  rewrite Hpositions. cbn [length seq for_each].
  assert (Hc : create_rectangular_cuboid items 0 = Failed KeyError).
  { unfold create_rectangular_cuboid. cbv zeta.
    rewrite Hpositions, Hrot, Hname, Hsizes. reflexivity. }
  rewrite Hc. reflexivity.
Qed.

Lemma missing_sizes_raise_key_error_witness :
  _create_rectangular_cuboid_list
    [ {| item_name := "Wall";
         positions := [ {| v_x := 1; v_y := 2; v_z := 3 |} ];
         rotations := None;
         sizes := None;
         colors := None |} ] = Failed KeyError.
Proof.
  apply (missing_sizes_raise_key_error _ [] {| v_x := 1; v_y := 2; v_z := 3 |} []);
    reflexivity.
Defined.

(** ** Rectangles, projections and overlap together *)

Lemma axis_aligned_x_extent (center : point) (width height : R) (corners : ndarray) :
  0 <= width ->
  calculate_vertices_of_axis_aligned_rectangle center width height = Returned corners ->
  get_min_max_projections corners (1, 0)
    = Returned (center.1 - width / 2, center.1 + width / 2).
Proof.
  intros Hw Hc. rewrite axis_aligned_vertices in Hc. injection Hc as <-.
  apply min_max_projections_of_bounds; unfold dot; cbn [map fst snd].
  - split; [left; lra|]. intros x [<-|[<-|[<-|[<-|[]]]]]; lra.
  - split; [right; left; lra|]. intros x [<-|[<-|[<-|[<-|[]]]]]; lra.
Qed.

Lemma axis_aligned_y_extent (center : point) (width height : R) (corners : ndarray) :
  0 <= height ->
  calculate_vertices_of_axis_aligned_rectangle center width height = Returned corners ->
  get_min_max_projections corners (0, 1)
    = Returned (center.2 - height / 2, center.2 + height / 2).
Proof.
  intros Hh Hc. rewrite axis_aligned_vertices in Hc. injection Hc as <-.
  apply min_max_projections_of_bounds; unfold dot; cbn [map fst snd].
  - split; [right; right; left; lra|]. intros x [<-|[<-|[<-|[<-|[]]]]]; lra.
  - split; [left; lra|]. intros x [<-|[<-|[<-|[<-|[]]]]]; lra.
Qed.

(** X29: The vertices of an axis-aligned rectangle of width and height that are
    not negative project onto the x axis (1, 0) with the extent
    (cx - width/2, cx + width/2) and onto the y axis (0, 1) with the extent
    (cy - height/2, cy + height/2). *)
Theorem axis_aligned_rectangle_extents (center : point) (width height : R)
    (Hwidth : 0 <= width) (Hheight : 0 <= height) :
  exists corners : ndarray,
    calculate_vertices_of_axis_aligned_rectangle center width height = Returned corners
    /\ get_min_max_projections corners (1, 0)
       = Returned (center.1 - width / 2, center.1 + width / 2)
    /\ get_min_max_projections corners (0, 1)
       = Returned (center.2 - height / 2, center.2 + height / 2).
Proof.
  eexists. split; [apply axis_aligned_vertices|]. split.
  - apply (axis_aligned_x_extent center width height); [exact Hwidth|].
    apply axis_aligned_vertices.
  - apply (axis_aligned_y_extent center width height); [exact Hheight|].
    apply axis_aligned_vertices.
Qed.

Lemma axis_aligned_rectangle_extents_witness :
  exists corners : ndarray,
    calculate_vertices_of_axis_aligned_rectangle (10, 20) 2 4 = Returned corners
    /\ get_min_max_projections corners (1, 0)
       = Returned ((10, 20).1 - 2 / 2, (10, 20).1 + 2 / 2)
    /\ get_min_max_projections corners (0, 1)
       = Returned ((10, 20).2 - 4 / 2, (10, 20).2 + 4 / 2).
Proof.
  apply (axis_aligned_rectangle_extents (10, 20) 2 4); lra.
Defined.

(** X30: For two axis-aligned rectangles of positive widths, the overlap of the
    extents of their vertices on the x axis is 0 exactly when the centroids
    are at least half the sum of the widths apart in x; otherwise it is
    positive. *)
Theorem x_axis_separates_distant_rectangles
    (center1 center2 : point) (width1 height1 width2 height2 : R)
    (Hwidth1 : 0 < width1) (Hwidth2 : 0 < width2) :
  exists (corners1 corners2 : ndarray) (lo1 hi1 lo2 hi2 overlap : R),
    calculate_vertices_of_axis_aligned_rectangle center1 width1 height1 = Returned corners1
    /\ calculate_vertices_of_axis_aligned_rectangle center2 width2 height2 = Returned corners2
    /\ get_min_max_projections corners1 (1, 0) = Returned (lo1, hi1)
    /\ get_min_max_projections corners2 (1, 0) = Returned (lo2, hi2)
    /\ determine_overlap_between_aligned_segments [lo1; hi1] [lo2; hi2] = Returned overlap
    /\ 0 <= overlap
    /\ (overlap = 0 <-> (width1 + width2) / 2 <= Rabs (center1.1 - center2.1)).
Proof.
  destruct center1 as [x1 y1], center2 as [x2 y2]. cbn [fst snd].
  eexists _, _, _, _, _, _, _.
  split; [apply axis_aligned_vertices|]. split; [apply axis_aligned_vertices|].
  split; [apply (axis_aligned_x_extent (x1, y1) width1 height1);
          [lra|apply axis_aligned_vertices]|].
  split; [apply (axis_aligned_x_extent (x2, y2) width2 height2);
          [lra|apply axis_aligned_vertices]|].
  split; [apply overlap_of_pairs|]. cbn [fst snd].
  split; [apply Rmax_l|].
  unfold Rabs. destruct (Rcase_abs (x1 - x2)); minmax_cases; split; intros; lra.
Qed.

Lemma x_axis_separates_distant_rectangles_witness :
  exists (corners1 corners2 : ndarray) (lo1 hi1 lo2 hi2 overlap : R),
    calculate_vertices_of_axis_aligned_rectangle (0, 0) 2 2 = Returned corners1
    /\ calculate_vertices_of_axis_aligned_rectangle (10, 0) 2 2 = Returned corners2
    /\ get_min_max_projections corners1 (1, 0) = Returned (lo1, hi1)
    /\ get_min_max_projections corners2 (1, 0) = Returned (lo2, hi2)
    /\ determine_overlap_between_aligned_segments [lo1; hi1] [lo2; hi2] = Returned overlap
    /\ 0 <= overlap
    /\ (overlap = 0 <-> (2 + 2) / 2 <= Rabs ((0, 0).1 - (10, 0).1)).
Proof.
  apply (x_axis_separates_distant_rectangles (0, 0) (10, 0) 2 2 2 2); lra.
Defined.
